(** * queueimpl3: a FIFO queue of fixed-size slices linked in a list

    Shallow embedding of [src/queueimpl3/queueimpl3.go].

    The Go program works on a garbage-collected heap of [Node] objects that
    point to each other, and on one [Queueimpl3] object whose fields are
    updated in place.  The embedding keeps both: a store made of a heap of
    nodes (a list indexed by address) and of the queue's four fields, and a
    small state-and-panic monad in which every method is written statement
    by statement.  A Go run-time panic (nil pointer dereference, index out
    of range) is the [Panic] result.  Allocation always succeeds.

    Contents: the model; the closed forms of the stores [Init], [Push] and
    [Pop] leave; the invariant [wf] of the reachable states and the shape
    [chained] of the list of nodes; then the properties of the queue,
    numbered C1 to C10. *)

From Stdlib Require Import ZArith List Lia.
From stdpp Require Import base list.

Open Scope Z_scope.

(** ** Machine integers

    Go's [int] is 64 bits wide on the usual targets and wraps around
    silently.  [q.len++], [q.len--] and [q.pos++] are modelled with the
    wrap-around written out. *)

Definition min_int : Z := - 2 ^ 63.
Definition max_int : Z := 2 ^ 63 - 1.

Definition wrap (z : Z) : Z := (z + 2 ^ 63) mod 2 ^ 64 - 2 ^ 63.

(** ** Constants of the package *)

Definition internalSliceSize : Z := 128.
Definition internalSliceLastPosition : Z := 127.

(** ** Addresses

    Addresses are positions in the heap; [*Node] is [option addr], and
    [None] is the nil pointer. *)

Abbreviation addr := nat.

(** ** Results of calls

    A call returns a value or panics. *)

Inductive fault : Type :=
  | NilDeref          (* invalid memory address or nil pointer dereference *)
  | IndexOutOfRange   (* index out of range *)
  | Dangling.         (* an address outside the heap; no Go program has one *)

Inductive result (A : Type) : Type :=
  | Ok (a : A)
  | Panic (f : fault).
Arguments Ok {A} a.
Arguments Panic {A} f.

Section Queueimpl3.

(** The queue stores [interface{}] values.  The nil interface is [None];
    every other dynamic value is [Some x] for [x] in an arbitrary type. *)
Context {V : Type}.

Definition value : Type := option V.

Record Node : Type := mkNode {
  v : list value;
  n : option addr
}.

Record Queueimpl3 : Type := mkQueue {
  head : option addr;
  tail : option addr;
  pos : Z;
  len : Z
}.

(** The store: the heap of nodes and the queue object.  Allocation extends
    the heap at its end, so the address of a new node is the heap's length.
    Nodes that became unreachable stay in the list (no collector is
    modelled); nothing reads them. *)
Record state : Type := mkState {
  heap : list Node;
  q : Queueimpl3
}.

(** ** The state-and-panic monad *)

Definition M (A : Type) : Type := state -> result (A * state).

Definition ret {A : Type} (a : A) : M A := fun s => Ok (a, s).

Definition bind {A B : Type} (m : M A) (k : A -> M B) : M B :=
  fun s => match m s with
           | Ok (a, s') => k a s'
           | Panic f => Panic f
           end.

Definition panic {A : Type} (f : fault) : M A := fun _ => Panic f.

Notation "'let*' x ':=' m 'in' k" := (bind m (fun x => k))
  (at level 10, x name, m at level 100, k at level 200).
Notation "m ';;;' k" := (bind m (fun _ => k))
  (at level 100, k at level 200, right associativity).

(** Reading and writing the fields of [q]. *)
Definition get {A : Type} (f : Queueimpl3 -> A) : M A :=
  fun s => Ok (f (q s), s).

Definition set_head (p : option addr) : M unit :=
  fun s => Ok (tt, mkState (heap s)
                     (mkQueue p (tail (q s)) (pos (q s)) (len (q s)))).
Definition set_tail (p : option addr) : M unit :=
  fun s => Ok (tt, mkState (heap s)
                     (mkQueue (head (q s)) p (pos (q s)) (len (q s)))).
Definition set_pos (z : Z) : M unit :=
  fun s => Ok (tt, mkState (heap s)
                     (mkQueue (head (q s)) (tail (q s)) z (len (q s)))).
Definition set_len (z : Z) : M unit :=
  fun s => Ok (tt, mkState (heap s)
                     (mkQueue (head (q s)) (tail (q s)) (pos (q s)) z)).

(** Reading and writing the node a pointer points to. *)
Definition deref (p : option addr) : M Node :=
  fun s => match p with
           | None => Panic NilDeref
           | Some a => match heap s !! a with
                       | Some nd => Ok (nd, s)
                       | None => Panic Dangling
                       end
           end.

Definition assign (p : option addr) (nd : Node) : M unit :=
  fun s => match p with
           | None => Panic NilDeref
           | Some a => match heap s !! a with
                       | Some _ => Ok (tt, mkState (<[a := nd]> (heap s)) (q s))
                       | None => Panic Dangling
                       end
           end.

Definition alloc (nd : Node) : M (option addr) :=
  fun s => Ok (Some (length (heap s)), mkState (heap s ++ [nd]) (q s)).

(** [l[i]] with Go's bounds check. *)
Definition index (l : list value) (i : Z) : M value :=
  if i <? 0 then panic IndexOutOfRange
  else match l !! Z.to_nat i with
       | Some x => ret x
       | None => panic IndexOutOfRange
       end.

(** ** The methods, as in the source *)

(** [newNode]: [&Node{v: make([]interface{}, 0, internalSliceSize)}].
    The slice is empty and its [n] is nil.  Its capacity is not part of the
    model: [Push] appends to it only while it is shorter than the capacity,
    so [append] never moves it and no second slice ever shares its array. *)
Definition newNode : M (option addr) :=
  alloc (mkNode [] None).

Definition Init : M unit :=
  let* n0 := newNode in
  set_head n0 ;;;
  set_tail n0 ;;;
  set_pos 0 ;;;
  set_len 0.

Definition Len : M Z := get len.

Definition Front : M (value * bool) :=
  let* l := get len in
  if l =? 0 then ret (None, false)
  else
    let* h := get head in
    let* nd := deref h in
    let* p := get pos in
    let* x := index (v nd) p in
    ret (x, true).

Definition Push (x : value) : M unit :=
  let* t := get tail in
  let* nd := deref t in
  (if Z.of_nat (length (v nd)) >=? internalSliceSize then
     let* n0 := newNode in
     let* t0 := get tail in
     let* nd0 := deref t0 in
     assign t0 (mkNode (v nd0) n0) ;;;
     set_tail n0
   else ret tt) ;;;
  let* t1 := get tail in
  let* nd1 := deref t1 in
  assign t1 (mkNode (v nd1 ++ [x]) (n nd1)) ;;;
  let* l := get len in
  set_len (wrap (l + 1)).

Definition Pop : M (value * bool) :=
  let* l := get len in
  if l =? 0 then ret (None, false)
  else
    let* h := get head in
    let* nd := deref h in
    let* p := get pos in
    let* x := index (v nd) p in
    assign h (mkNode (<[Z.to_nat p := None]> (v nd)) (n nd)) ;;;
    set_len (wrap (l - 1)) ;;;
    (if p >=? internalSliceLastPosition then
       let* nd0 := deref h in
       let n0 := n nd0 in
       assign h (mkNode (v nd0) None) ;;;
       set_head n0 ;;;
       set_pos 0
     else
       set_pos (wrap (p + 1))) ;;;
    ret (x, true).

(** [New]: [new(Queueimpl3).Init()].  The zero queue has nil pointers and
    zero counters; the program starts with no node allocated. *)
Definition zero : state := mkState [] (mkQueue None None 0 0).

Definition New : state :=
  match Init zero with
  | Ok (_, s) => s
  | Panic _ => zero
  end.

(** ** Runs of the public interface *)

Inductive op : Type :=
  | OInit
  | OLen
  | OFront
  | OPush (x : value)
  | OPop.

(** What a call returned. *)
Inductive event : Type :=
  | EInit
  | ELen (z : Z)
  | EFront (x : value) (found : bool)
  | EPush
  | EPop (x : value) (found : bool).

Definition step (o : op) : M event :=
  match o with
  | OInit => Init ;;; ret EInit
  | OLen => let* z := Len in ret (ELen z)
  | OFront => let* r := Front in ret (EFront (fst r) (snd r))
  | OPush x => Push x ;;; ret EPush
  | OPop => let* r := Pop in ret (EPop (fst r) (snd r))
  end.

(** A run performs the calls in order and stops at the first panic.  It
    yields the events of the calls that returned, the store they left, and
    the panic if there was one.  Every method panics, if at all, before its
    first write, so the store at a panic is the store before the call. *)
Record outcome : Type := mkOutcome {
  trace : list event;
  final : state;
  crash : option fault
}.

Fixpoint run (ops : list op) (s : state) : outcome :=
  match ops with
  | [] => mkOutcome [] s None
  | o :: rest =>
      match step o s with
      | Ok (e, s') =>
          let r := run rest s' in
          mkOutcome (e :: trace r) (final r) (crash r)
      | Panic f => mkOutcome [] s (Some f)
      end
  end.

(** The states the interface can get a queue into: those left by a run
    from [New].  The run is shorter than [max_int] calls, so that [q.len],
    which never exceeds the number of calls made, is below the point where
    [q.len++] would wrap. *)
Definition reachable (s : state) : Prop :=
  exists ops : list op,
    Z.of_nat (length ops) < max_int /\ final (run ops New) = s.

Definition pushes (xs : list value) : list op := map OPush xs.
Definition pops (k : nat) : list op := repeat OPop k.

(** Number of [Push] calls, and of [Pop] calls that found an element, among
    the calls that returned. *)
Fixpoint pushed (tr : list event) : Z :=
  match tr with
  | [] => 0
  | EPush :: r => 1 + pushed r
  | _ :: r => pushed r
  end.

Fixpoint popped (tr : list event) : Z :=
  match tr with
  | [] => 0
  | EPop _ true :: r => 1 + popped r
  | _ :: r => popped r
  end.

Definition is_Init (o : op) : bool :=
  match o with OInit => true | _ => false end.

(** Fill the queue with [xs], pop everything, push [y]. *)
Definition refill (xs : list value) (y : value) : list op :=
  pushes xs ++ pops (length xs) ++ [OPush y].

(** ** Closed forms of the stores the methods leave

    Proved equal to what the monadic code computes
    ([Init_eq], [Push_eq], [Pop_eq] below). *)

Definition after_Init (s : state) : state :=
  let a := length (heap s) in
  mkState (heap s ++ [mkNode [] None]) (mkQueue (Some a) (Some a) 0 0).

Definition after_Push (x : value) (s : state) (t : addr) (nd : Node) : state :=
  if Z.of_nat (length (v nd)) >=? internalSliceSize then
    let a := length (heap s) in
    mkState (<[a := mkNode [x] None]>
               (<[t := mkNode (v nd) (Some a)]> (heap s ++ [mkNode [] None])))
            (mkQueue (head (q s)) (Some a) (pos (q s)) (wrap (len (q s) + 1)))
  else
    mkState (<[t := mkNode (v nd ++ [x]) (n nd)]> (heap s))
            (mkQueue (head (q s)) (tail (q s)) (pos (q s)) (wrap (len (q s) + 1))).

Definition after_Pop (s : state) (a : addr) (nd : Node) : state :=
  let p := pos (q s) in
  let slots := <[Z.to_nat p := None]> (v nd) in
  if p >=? internalSliceLastPosition then
    mkState (<[a := mkNode slots None]> (heap s))
            (mkQueue (n nd) (tail (q s)) 0 (wrap (len (q s) - 1)))
  else
    mkState (<[a := mkNode slots (n nd)]> (heap s))
            (mkQueue (head (q s)) (tail (q s)) (wrap (p + 1)) (wrap (len (q s) - 1))).

(** ** Invariants of the reachable states *)

(** The tail pointer is never nil and points into the heap. *)
Definition tail_ok (s : state) : Prop :=
  exists t nd, tail (q s) = Some t /\ heap s !! t = Some nd.

(** The head pointer and the [n] pointers are nil or point into the heap. *)
Definition head_ok (s : state) : Prop :=
  forall a, head (q s) = Some a -> (a < length (heap s))%nat.

Definition links_ok (s : state) : Prop :=
  forall a nd b, heap s !! a = Some nd -> n nd = Some b ->
    (b < length (heap s))%nat.

(** No slice grows beyond [internalSliceSize]. *)
Definition blocks_ok (s : state) : Prop :=
  forall a nd, heap s !! a = Some nd ->
    Z.of_nat (length (v nd)) <= internalSliceSize.

Definition pos_ok (s : state) : Prop :=
  0 <= pos (q s) <= internalSliceLastPosition.

(** [q.len] after at most [k] calls. *)
Definition len_ok (k : nat) (s : state) : Prop :=
  0 <= len (q s) <= Z.of_nat k.

(** The slots of the head node below [q.pos] exist and hold nil. *)
Definition cleared (s : state) : Prop :=
  forall a nd i,
    head (q s) = Some a -> heap s !! a = Some nd ->
    Z.of_nat i < pos (q s) -> v nd !! i = Some None.

Record wf (k : nat) (s : state) : Prop := mkWf {
  wf_tail : tail_ok s;
  wf_head : head_ok s;
  wf_links : links_ok s;
  wf_blocks : blocks_ok s;
  wf_pos : pos_ok s;
  wf_len : len_ok k s;
  wf_cleared : cleared s
}.

(** A chain of nodes: [ch] lists, in order, the address and the slots of
    each node; every node points to the next one of the list, the last one
    to [nxt]. *)
Definition first_addr (ch : list (addr * list value)) (nxt : option addr)
  : option addr :=
  match ch with
  | [] => nxt
  | (a, _) :: _ => Some a
  end.

Fixpoint lseg (h : list Node) (ch : list (addr * list value))
  (nxt : option addr) : Prop :=
  match ch with
  | [] => True
  | (a, vs) :: rest =>
      h !! a = Some (mkNode vs (first_addr rest nxt)) /\ lseg h rest nxt
  end.

(** All the slots of the chain [pre] followed by the tail node's [vs]. *)
Definition slots_of (pre : list (addr * list value)) (vs : list value)
  : list value :=
  concat pre.*2 ++ vs.

(** The shape of a queue whose head is not nil: the full nodes [pre] lead
    from the head to the tail node [t], whose slots are [vs]; the elements
    of the queue are the slots from [q.pos] on. *)
Record chained (s : state) (pre : list (addr * list value)) (t : addr)
  (vs : list value) : Prop := mkChained {
  ch_tail : tail (q s) = Some t;
  ch_head : head (q s) = first_addr pre (Some t);
  ch_lseg : lseg (heap s) pre (Some t);
  ch_last : heap s !! t = Some (mkNode vs None);
  ch_nodup : NoDup (pre.*1 ++ [t]);
  ch_full : Forall (fun b => Z.of_nat (length (snd b)) = internalSliceSize) pre;
  ch_size : Z.of_nat (length vs) <= internalSliceSize;
  ch_pos : 0 <= pos (q s) <= internalSliceLastPosition;
  ch_len : len (q s) = Z.of_nat (length (slots_of pre vs)) - pos (q s);
  ch_int : 0 <= len (q s) <= max_int
}.

(** The shape left by popping the last slot of a node that has no
    successor: [q.head] is nil. *)
Definition headless (s : state) : Prop :=
  head (q s) = None /\ pos (q s) = 0.

(** Every reachable state has one of the two shapes ([reachable_shape]). *)
Definition shape (s : state) : Prop :=
  (exists pre t vs, chained s pre t vs) \/ headless s.

(** ** The reference queue

    What the package documents: a FIFO queue.  The reference is a list, the
    oldest element first; [fifo_run] gives what each call of a run returns
    on it. *)
Definition fifo_step (o : op) (l : list value) : event * list value :=
  match o with
  | OInit => (EInit, [])
  | OLen => (ELen (Z.of_nat (length l)), l)
  | OFront =>
      match l with
      | [] => (EFront None false, l)
      | x :: _ => (EFront x true, l)
      end
  | OPush x => (EPush, l ++ [x])
  | OPop =>
      match l with
      | [] => (EPop None false, l)
      | x :: r => (EPop x true, r)
      end
  end.

Fixpoint fifo_run (ops : list op) (l : list value) : list event :=
  match ops with
  | [] => []
  | o :: rest => fst (fifo_step o l) :: fifo_run rest (snd (fifo_step o l))
  end.

(** The store [s], reached in at most [k] calls, stands for the list [l]:
    either the nodes are chained and [l] is what their slots hold from
    [q.pos] on, or the head is nil and [q.len] counts [l]. *)
Definition stands_for (k : nat) (s : state) (l : list value) : Prop :=
  wf k s /\
  ((exists pre t vs,
      chained s pre t vs /\
      l = drop (Z.to_nat (pos (q s))) (slots_of pre vs)) \/
   (headless s /\ len (q s) = Z.of_nat (length l))).

(** A call that handed an element to the caller. *)
Definition returns_element (e : event) : bool :=
  match e with
  | EFront _ true | EPop _ true => true
  | _ => false
  end.

(** * Proofs *)

(** ** Machine arithmetic *)

Lemma wrap_id (z : Z) : min_int <= z <= max_int -> wrap z = z.
Proof.
  unfold wrap, min_int, max_int. intros Hz.
  rewrite Z.mod_small; lia.
Qed.

(** ** The monadic code and its closed forms *)

Ltac unfold_monad :=
  unfold bind, ret, panic, get, set_head, set_tail, set_pos, set_len,
    deref, assign, alloc, newNode, index; simpl.

Lemma Init_eq (s : state) : Init s = Ok (tt, after_Init s).
Proof. reflexivity. Qed.

Lemma Len_eq (s : state) : Len s = Ok (len (q s), s).
Proof. reflexivity. Qed.

Lemma Front_empty (s : state) :
  len (q s) = 0 -> Front s = Ok ((None, false), s).
Proof.
  intros H. unfold Front. unfold_monad. rewrite H. reflexivity.
Qed.

Lemma Pop_empty (s : state) :
  len (q s) = 0 -> Pop s = Ok ((None, false), s).
Proof.
  intros H. unfold Pop. unfold_monad. rewrite H. reflexivity.
Qed.

Lemma Front_eq (s : state) (a : addr) (nd : Node) (x : value) :
  len (q s) <> 0 -> head (q s) = Some a -> heap s !! a = Some nd ->
  0 <= pos (q s) -> v nd !! Z.to_nat (pos (q s)) = Some x ->
  Front s = Ok ((x, true), s).
Proof.
  intros Hl Hh Ha Hp Hx. unfold Front. unfold_monad.
  destruct (Z.eqb_spec (len (q s)) 0) as [|_]; [contradiction|].
  rewrite Hh, Ha. simpl.
  destruct (Z.ltb_spec (pos (q s)) 0) as [|_]; [lia|].
  rewrite Hx. reflexivity.
Qed.

Lemma Front_nil_head (s : state) :
  len (q s) <> 0 -> head (q s) = None -> Front s = Panic NilDeref.
Proof.
  intros Hl Hh. unfold Front. unfold_monad.
  destruct (Z.eqb_spec (len (q s)) 0) as [|_]; [contradiction|].
  rewrite Hh. reflexivity.
Qed.

Lemma Pop_nil_head (s : state) :
  len (q s) <> 0 -> head (q s) = None -> Pop s = Panic NilDeref.
Proof.
  intros Hl Hh. unfold Pop. unfold_monad.
  destruct (Z.eqb_spec (len (q s)) 0) as [|_]; [contradiction|].
  rewrite Hh. reflexivity.
Qed.

Lemma Pop_eq (s : state) (a : addr) (nd : Node) (x : value) :
  len (q s) <> 0 -> head (q s) = Some a -> heap s !! a = Some nd ->
  0 <= pos (q s) -> v nd !! Z.to_nat (pos (q s)) = Some x ->
  Pop s = Ok ((x, true), after_Pop s a nd).
Proof.
  intros Hl Hh Ha Hp Hx. unfold Pop, after_Pop. unfold_monad.
  destruct (Z.eqb_spec (len (q s)) 0) as [|_]; [contradiction|].
  rewrite Hh, Ha. simpl.
  destruct (Z.ltb_spec (pos (q s)) 0) as [|_]; [lia|].
  rewrite Hx. simpl. rewrite Ha. simpl.
  assert (Hlt : (a < length (heap s))%nat) by (eapply lookup_lt_Some; eauto).
  destruct (pos (q s) >=? internalSliceLastPosition); simpl.
  - rewrite list_lookup_insert_eq by assumption. simpl.
    rewrite list_lookup_insert_eq by assumption.
    rewrite list_insert_insert_eq. reflexivity.
  - rewrite ?Hh. reflexivity.
Qed.

(** Every way [Pop] can return. *)
Lemma Pop_inv (s s' : state) (r : value * bool) :
  Pop s = Ok (r, s') ->
  (len (q s) = 0 /\ r = (None, false) /\ s' = s) \/
  (len (q s) <> 0 /\ exists a nd x,
      head (q s) = Some a /\ heap s !! a = Some nd /\ 0 <= pos (q s) /\
      v nd !! Z.to_nat (pos (q s)) = Some x /\
      r = (x, true) /\ s' = after_Pop s a nd).
Proof.
  intros H.
  destruct (Z.eq_dec (len (q s)) 0) as [Hz|Hnz].
  - left. rewrite Pop_empty in H by assumption.
    injection H as <- <-. auto.
  - right. split; [assumption|].
    destruct (head (q s)) as [a|] eqn:Hh.
    2:{ rewrite Pop_nil_head in H by assumption. discriminate. }
    destruct (heap s !! a) as [nd|] eqn:Ha.
    2:{ revert H. unfold Pop. unfold_monad.
        destruct (Z.eqb_spec (len (q s)) 0) as [|_]; [contradiction|].
        rewrite Hh, Ha. discriminate. }
    destruct (Z.lt_ge_cases (pos (q s)) 0) as [Hneg|Hp].
    { revert H. unfold Pop. unfold_monad.
      destruct (Z.eqb_spec (len (q s)) 0) as [|_]; [contradiction|].
      rewrite Hh, Ha. simpl.
      destruct (Z.ltb_spec (pos (q s)) 0) as [_|]; [discriminate|lia]. }
    destruct (v nd !! Z.to_nat (pos (q s))) as [x|] eqn:Hx.
    2:{ revert H. unfold Pop. unfold_monad.
        destruct (Z.eqb_spec (len (q s)) 0) as [|_]; [contradiction|].
        rewrite Hh, Ha. simpl.
        destruct (Z.ltb_spec (pos (q s)) 0) as [|_]; [lia|].
        rewrite Hx. discriminate. }
    rewrite (Pop_eq s a nd x) in H by assumption.
    injection H as <- <-. exists a, nd, x. auto 10.
Qed.

Lemma Push_eq (x : value) (s : state) (t : addr) (nd : Node) :
  tail (q s) = Some t -> heap s !! t = Some nd ->
  Push x s = Ok (tt, after_Push x s t nd).
Proof.
  intros Ht Ha. unfold Push, after_Push. unfold_monad.
  rewrite Ht, Ha. simpl.
  assert (Hlt : (t < length (heap s))%nat) by (eapply lookup_lt_Some; eauto).
  destruct (Z.of_nat (length (v nd)) >=? internalSliceSize); simpl;
    repeat first
      [ rewrite Ht | rewrite Ha
      | rewrite lookup_app_l by assumption
      | rewrite list_lookup_insert_ne by lia
      | rewrite lookup_app_r by lia
      | rewrite Nat.sub_diag
      | progress simpl ];
    reflexivity.
Qed.

Lemma Push_inv (x : value) (s s' : state) :
  Push x s = Ok (tt, s') ->
  exists t nd, tail (q s) = Some t /\ heap s !! t = Some nd /\
               s' = after_Push x s t nd.
Proof.
  intros H.
  destruct (tail (q s)) as [t|] eqn:Ht.
  2:{ revert H. unfold Push. unfold_monad. rewrite Ht. discriminate. }
  destruct (heap s !! t) as [nd|] eqn:Ha.
  2:{ revert H. unfold Push. unfold_monad. rewrite Ht, Ha. discriminate. }
  rewrite (Push_eq x s t nd) in H by assumption.
  injection H as <-. eauto.
Qed.

(** ** The heap after [Push] and after [Pop] *)

Lemma after_Pop_length (s : state) (a : addr) (nd : Node) :
  length (heap (after_Pop s a nd)) = length (heap s).
Proof.
  unfold after_Pop.
  destruct (pos (q s) >=? internalSliceLastPosition); simpl;
    apply length_insert.
Qed.

Lemma after_Pop_lookup_eq (s : state) (a : addr) (nd : Node) :
  heap s !! a = Some nd ->
  heap (after_Pop s a nd) !! a =
    Some (mkNode (<[Z.to_nat (pos (q s)) := None]> (v nd))
            (if pos (q s) >=? internalSliceLastPosition then None else n nd)).
Proof.
  intros Ha. apply lookup_lt_Some in Ha. unfold after_Pop.
  destruct (pos (q s) >=? internalSliceLastPosition); simpl;
    rewrite list_lookup_insert_eq by assumption; reflexivity.
Qed.

Lemma after_Pop_lookup_ne (s : state) (a b : addr) (nd : Node) :
  b <> a -> heap (after_Pop s a nd) !! b = heap s !! b.
Proof.
  intros Hne. unfold after_Pop.
  destruct (pos (q s) >=? internalSliceLastPosition); simpl;
    rewrite list_lookup_insert_ne by congruence; reflexivity.
Qed.

Lemma after_Pop_lookup (s : state) (a b : addr) (nd nd' : Node) :
  heap s !! a = Some nd ->
  heap (after_Pop s a nd) !! b = Some nd' ->
  (b = a /\
   nd' = mkNode (<[Z.to_nat (pos (q s)) := None]> (v nd))
           (if pos (q s) >=? internalSliceLastPosition then None else n nd))
  \/ (b <> a /\ heap s !! b = Some nd').
Proof.
  intros Ha Hb. destruct (Nat.eq_dec b a) as [->|Hne].
  - left. rewrite (after_Pop_lookup_eq s a nd Ha) in Hb.
    injection Hb as <-. auto.
  - right. rewrite after_Pop_lookup_ne in Hb by assumption. auto.
Qed.

Lemma after_Push_length (x : value) (s : state) (t : addr) (nd : Node) :
  length (heap (after_Push x s t nd)) =
    if Z.of_nat (length (v nd)) >=? internalSliceSize
    then S (length (heap s)) else length (heap s).
Proof.
  unfold after_Push.
  destruct (Z.of_nat (length (v nd)) >=? internalSliceSize); simpl;
    rewrite ?length_insert, ?length_app; simpl; lia.
Qed.

Lemma after_Push_lookup_tail (x : value) (s : state) (t : addr) (nd : Node) :
  heap s !! t = Some nd ->
  heap (after_Push x s t nd) !! t =
    Some (if Z.of_nat (length (v nd)) >=? internalSliceSize
          then mkNode (v nd) (Some (length (heap s)))
          else mkNode (v nd ++ [x]) (n nd)).
Proof.
  intros Ha. apply lookup_lt_Some in Ha. unfold after_Push.
  destruct (Z.of_nat (length (v nd)) >=? internalSliceSize); simpl.
  - rewrite list_lookup_insert_ne by lia.
    rewrite list_lookup_insert_eq by (rewrite length_app; simpl; lia).
    reflexivity.
  - rewrite list_lookup_insert_eq by assumption. reflexivity.
Qed.

Lemma after_Push_lookup_new (x : value) (s : state) (t : addr) (nd : Node) :
  heap s !! t = Some nd ->
  Z.of_nat (length (v nd)) >= internalSliceSize ->
  heap (after_Push x s t nd) !! length (heap s) = Some (mkNode [x] None).
Proof.
  intros Ha Hfull. apply lookup_lt_Some in Ha. unfold after_Push.
  destruct (Z.geb_spec (Z.of_nat (length (v nd))) internalSliceSize);
    [|lia]. simpl.
  rewrite list_lookup_insert_eq
    by (rewrite length_insert, length_app; simpl; lia).
  reflexivity.
Qed.

Lemma after_Push_lookup_other (x : value) (s : state) (t b : addr) (nd : Node) :
  heap s !! t = Some nd -> b <> t -> (b < length (heap s))%nat ->
  heap (after_Push x s t nd) !! b = heap s !! b.
Proof.
  intros Ha Hne Hlt. unfold after_Push.
  destruct (Z.of_nat (length (v nd)) >=? internalSliceSize); simpl.
  - rewrite list_lookup_insert_ne by lia.
    rewrite list_lookup_insert_ne by congruence.
    apply lookup_app_l. assumption.
  - rewrite list_lookup_insert_ne by congruence. reflexivity.
Qed.

(** Every node of the heap after [Push]: the old tail, the new node if one
    was allocated, or a node that did not change. *)
Lemma after_Push_lookup (x : value) (s : state) (t b : addr) (nd nd' : Node) :
  heap s !! t = Some nd ->
  heap (after_Push x s t nd) !! b = Some nd' ->
  (b = t /\
   nd' = (if Z.of_nat (length (v nd)) >=? internalSliceSize
          then mkNode (v nd) (Some (length (heap s)))
          else mkNode (v nd ++ [x]) (n nd)))
  \/ (b = length (heap s) /\ Z.of_nat (length (v nd)) >= internalSliceSize /\
      nd' = mkNode [x] None)
  \/ (b <> t /\ heap s !! b = Some nd').
Proof.
  intros Ha Hb.
  destruct (Nat.eq_dec b t) as [->|Hne].
  - left. rewrite (after_Push_lookup_tail x s t nd Ha) in Hb.
    injection Hb as <-. auto.
  - right.
    assert (Hlen : (b < length (heap (after_Push x s t nd)))%nat)
      by (eapply lookup_lt_Some; eauto).
    rewrite after_Push_length in Hlen.
    destruct (Z.geb_spec (Z.of_nat (length (v nd))) internalSliceSize)
      as [Hfull|Hnot].
    + destruct (Nat.eq_dec b (length (heap s))) as [->|Hnew].
      * left. rewrite after_Push_lookup_new in Hb by (assumption || lia).
        injection Hb as <-. split; [reflexivity|]. split; [lia|reflexivity].
      * right. rewrite after_Push_lookup_other in Hb
          by (assumption || lia). auto.
    + right. rewrite after_Push_lookup_other in Hb by assumption. auto.
Qed.

(** ** The invariant [wf] holds in every reachable state *)

Lemma wf_mono (k k' : nat) (s : state) :
  wf k s -> (k <= k')%nat -> wf k' s.
Proof.
  intros [] Hk. constructor; try assumption.
  unfold len_ok in *. lia.
Qed.

Lemma wf_after_Init (k : nat) (s : state) :
  links_ok s -> blocks_ok s -> wf k (after_Init s).
Proof.
  intros Hlinks Hblocks. unfold after_Init. constructor; simpl.
  - exists (length (heap s)), (mkNode [] None). simpl. split; [reflexivity|].
    rewrite lookup_app_r by lia. rewrite Nat.sub_diag. reflexivity.
  - intros a [= <-]. simpl. rewrite length_app. simpl. lia.
  - intros a nd b Ha Hn. simpl in *. rewrite length_app. simpl.
    apply lookup_snoc_Some in Ha as [[_ Ha]|[_ <-]].
    + specialize (Hlinks a nd b Ha Hn). lia.
    + discriminate.
  - intros a nd Ha. simpl in *.
    apply lookup_snoc_Some in Ha as [[_ Ha]|[_ <-]].
    + exact (Hblocks a nd Ha).
    + simpl. unfold internalSliceSize. lia.
  - unfold pos_ok, internalSliceLastPosition. simpl. lia.
  - unfold len_ok. simpl. lia.
  - intros a nd i _ _ Hi. simpl in Hi. lia.
Qed.

Lemma wf_zero_heap : links_ok zero /\ blocks_ok zero.
Proof.
  split.
  - intros a nd b Ha. simpl in Ha. destruct a; discriminate.
  - intros a nd Ha. simpl in Ha. destruct a; discriminate.
Qed.

Lemma wf_New : wf 0 New.
Proof.
  change New with (after_Init zero).
  apply wf_after_Init; apply wf_zero_heap.
Qed.

Lemma wf_after_Push (k : nat) (x : value) (s : state) (t : addr) (nd : Node) :
  wf k s -> Z.of_nat k < max_int ->
  tail (q s) = Some t -> heap s !! t = Some nd ->
  wf (S k) (after_Push x s t nd) /\
  len (q (after_Push x s t nd)) = len (q s) + 1.
Proof.
  intros [Htail Hhead Hlinks Hblocks Hpos Hlen Hclr] Hk Ht Ha.
  pose proof (after_Push_length x s t nd) as Hlength.
  pose proof (after_Push_lookup_tail x s t nd Ha) as Hnew_t.
  assert (Ht_lt : (t < length (heap s))%nat) by (eapply lookup_lt_Some; eauto).
  assert (Hgrow : (length (heap s) <= length (heap (after_Push x s t nd)))%nat).
  { rewrite Hlength.
    destruct (Z.of_nat (length (v nd)) >=? internalSliceSize); lia. }
  assert (Hq : head (q (after_Push x s t nd)) = head (q s) /\
               pos (q (after_Push x s t nd)) = pos (q s) /\
               len (q (after_Push x s t nd)) = wrap (len (q s) + 1)).
  { unfold after_Push.
    destruct (Z.of_nat (length (v nd)) >=? internalSliceSize); simpl; auto. }
  destruct Hq as (Hqh & Hqp & Hql).
  assert (Hw : wrap (len (q s) + 1) = len (q s) + 1).
  { apply wrap_id. unfold len_ok, min_int, max_int in *. lia. }
  split; [|congruence].
  constructor.
  - unfold tail_ok, after_Push.
    destruct (Z.geb_spec (Z.of_nat (length (v nd))) internalSliceSize)
      as [Hfull|Hnot]; simpl.
    + exists (length (heap s)), (mkNode [x] None). split; [reflexivity|].
      pose proof (after_Push_lookup_new x s t nd Ha ltac:(lia)) as Hn.
      unfold after_Push in Hn.
      destruct (Z.geb_spec (Z.of_nat (length (v nd))) internalSliceSize);
        [exact Hn|lia].
    + exists t, (mkNode (v nd ++ [x]) (n nd)). split; [assumption|].
      apply list_lookup_insert_eq. assumption.
  - intros a Hh. rewrite Hqh in Hh. specialize (Hhead a Hh). lia.
  - intros a nd' b Hl Hn.
    apply (after_Push_lookup x s t a nd nd' Ha) in Hl
      as [[-> ->]|[(-> & Hfull & ->)|[Hne Hl]]].
    + rewrite Hlength.
      destruct (Z.of_nat (length (v nd)) >=? internalSliceSize); simpl in Hn.
      * injection Hn as <-. lia.
      * specialize (Hlinks t nd b Ha Hn). lia.
    + discriminate.
    + specialize (Hlinks a nd' b Hl Hn). lia.
  - intros a nd' Hl.
    apply (after_Push_lookup x s t a nd nd' Ha) in Hl
      as [[-> ->]|[(-> & Hfull & ->)|[Hne Hl]]].
    + specialize (Hblocks t nd Ha).
      destruct (Z.geb_spec (Z.of_nat (length (v nd))) internalSliceSize);
        simpl; [assumption|].
      rewrite length_app. simpl. lia.
    + simpl. unfold internalSliceSize. lia.
    + exact (Hblocks a nd' Hl).
  - unfold pos_ok in *. rewrite Hqp. assumption.
  - unfold len_ok in *. rewrite Hql, Hw. lia.
  - intros a nd' i Hh Hl Hi. rewrite Hqh in Hh. rewrite Hqp in Hi.
    pose proof (Hhead a Hh) as Ha_lt.
    apply (after_Push_lookup x s t a nd nd' Ha) in Hl
      as [[-> ->]|[(-> & Hfull & ->)|[Hne Hl]]].
    + specialize (Hclr t nd i Hh Ha Hi).
      destruct (Z.of_nat (length (v nd)) >=? internalSliceSize); simpl;
        [assumption|].
      apply lookup_app_l_Some. assumption.
    + lia.
    + exact (Hclr a nd' i Hh Hl Hi).
Qed.

Lemma wf_after_Pop (k : nat) (s : state) (a : addr) (nd : Node) (x : value) :
  wf k s -> Z.of_nat k <= max_int -> len (q s) <> 0 ->
  head (q s) = Some a -> heap s !! a = Some nd ->
  v nd !! Z.to_nat (pos (q s)) = Some x ->
  wf k (after_Pop s a nd) /\
  len (q (after_Pop s a nd)) = len (q s) - 1.
Proof.
  intros [Htail Hhead Hlinks Hblocks Hpos Hlen Hclr] Hk Hnz Hh Ha Hx.
  pose proof (after_Pop_length s a nd) as Hlength.
  assert (Hp_lt : (Z.to_nat (pos (q s)) < length (v nd))%nat)
    by (eapply lookup_lt_Some; eauto).
  assert (Hw : wrap (len (q s) - 1) = len (q s) - 1).
  { apply wrap_id. unfold len_ok, min_int, max_int in *. lia. }
  assert (Hql : len (q (after_Pop s a nd)) = len (q s) - 1).
  { unfold after_Pop.
    destruct (pos (q s) >=? internalSliceLastPosition); simpl; assumption. }
  assert (Hqt : tail (q (after_Pop s a nd)) = tail (q s)).
  { unfold after_Pop.
    destruct (pos (q s) >=? internalSliceLastPosition); reflexivity. }
  split; [|assumption].
  constructor.
  - destruct Htail as (t & ndt & Ht & Hlt). unfold tail_ok. rewrite Hqt.
    assert (is_Some (heap (after_Pop s a nd) !! t)) as [nd' Hnd'].
    { apply lookup_lt_is_Some. rewrite Hlength.
      eapply lookup_lt_Some; eauto. }
    eauto.
  - intros b Hb. rewrite Hlength. revert Hb. unfold after_Pop.
    destruct (pos (q s) >=? internalSliceLastPosition); simpl; intros Hb.
    + exact (Hlinks a nd b Ha Hb).
    + apply Hhead. assumption.
  - intros b nd' c Hl Hn. rewrite Hlength.
    apply (after_Pop_lookup s a b nd nd' Ha) in Hl as [[-> ->]|[Hne Hl]].
    + simpl in Hn.
      destruct (pos (q s) >=? internalSliceLastPosition); [discriminate|].
      exact (Hlinks a nd c Ha Hn).
    + exact (Hlinks b nd' c Hl Hn).
  - intros b nd' Hl.
    apply (after_Pop_lookup s a b nd nd' Ha) in Hl as [[-> ->]|[Hne Hl]].
    + simpl. rewrite length_insert. exact (Hblocks a nd Ha).
    + exact (Hblocks b nd' Hl).
  - unfold pos_ok, after_Pop, internalSliceLastPosition in *.
    destruct (Z.geb_spec (pos (q s)) 127); simpl; [lia|].
    rewrite wrap_id; unfold min_int, max_int; lia.
  - unfold len_ok in *. rewrite Hql. lia.
  - intros b nd' i Hb Hl Hi.
    unfold pos_ok, internalSliceLastPosition in Hpos.
    revert Hb Hl Hi. unfold after_Pop, internalSliceLastPosition.
    destruct (Z.geb_spec (pos (q s)) 127) as [Hge|Hlt]; simpl.
    + intros; lia.
    + rewrite wrap_id by (unfold min_int, max_int; lia).
      rewrite Hh. intros [= <-] Hl Hi.
      rewrite list_lookup_insert_eq in Hl by (eapply lookup_lt_Some; eauto).
      injection Hl as <-. simpl.
      destruct (Nat.eq_dec i (Z.to_nat (pos (q s)))) as [->|Hne].
      * apply list_lookup_insert_eq. assumption.
      * rewrite list_lookup_insert_ne by congruence.
        apply (Hclr a nd i Hh Ha). lia.
Qed.

(** Every way [Front] can return; it never writes. *)
Lemma Front_inv (s s' : state) (r : value * bool) :
  Front s = Ok (r, s') ->
  s' = s /\
  ((len (q s) = 0 /\ r = (None, false)) \/
   (len (q s) <> 0 /\ exists a nd x,
      head (q s) = Some a /\ heap s !! a = Some nd /\ 0 <= pos (q s) /\
      v nd !! Z.to_nat (pos (q s)) = Some x /\ r = (x, true))).
Proof.
  unfold Front. unfold_monad.
  destruct (Z.eqb_spec (len (q s)) 0) as [Hz|Hnz].
  - intros [= <- <-]. auto.
  - destruct (head (q s)) as [a|]; [|discriminate].
    destruct (heap s !! a) as [nd|] eqn:Ha; [|discriminate]. simpl.
    destruct (Z.ltb_spec (pos (q s)) 0) as [|Hp]; [discriminate|].
    destruct (v nd !! Z.to_nat (pos (q s))) as [x|] eqn:Hx; [|discriminate].
    intros [= <- <-]. split; [reflexivity|]. right. split; [assumption|].
    exists a, nd, x. auto 10.
Qed.

Lemma step_wf (k : nat) (o : op) (s s' : state) (e : event) :
  wf k s -> Z.of_nat k < max_int -> step o s = Ok (e, s') -> wf (S k) s'.
Proof.
  intros Hwf Hk. destruct o as [| | |x|]; simpl; unfold bind, ret.
  - rewrite Init_eq. intros [= _ <-].
    apply wf_after_Init; [apply (wf_links _ _ Hwf)|apply (wf_blocks _ _ Hwf)].
  - rewrite Len_eq. intros [= _ <-]. apply (wf_mono k); [assumption|lia].
  - destruct (Front s) as [[r s0]|] eqn:HF; [|discriminate].
    intros [= _ <-]. apply Front_inv in HF as [-> _].
    apply (wf_mono k); [assumption|lia].
  - destruct (Push x s) as [[[] s0]|] eqn:HP; [|discriminate].
    intros [= _ <-]. apply Push_inv in HP as (t & nd & Ht & Ha & ->).
    apply wf_after_Push; assumption.
  - destruct (Pop s) as [[r s0]|] eqn:HP; [|discriminate].
    intros [= _ <-].
    apply Pop_inv in HP
      as [(_ & _ & ->)|(Hnz & a & nd & x & Hh & Ha & _ & Hx & _ & ->)].
    + apply (wf_mono k); [assumption|lia].
    + apply (wf_mono k); [|lia].
      eapply wf_after_Pop; eauto. lia.
Qed.

Lemma run_wf (ops : list op) : forall (k : nat) (s : state),
  wf k s -> Z.of_nat (k + length ops) <= max_int ->
  wf (k + length ops) (final (run ops s)).
Proof.
  induction ops as [|o rest IH]; intros k s Hwf Hk; simpl in *.
  - apply (wf_mono k); [assumption|lia].
  - destruct (step o s) as [[e s']|f] eqn:Hstep; simpl.
    + replace (k + S (length rest))%nat with (S k + length rest)%nat by lia.
      apply IH; [|lia]. eapply step_wf; eauto. lia.
    + apply (wf_mono k); [assumption|lia].
Qed.

Lemma reachable_wf (s : state) :
  reachable s -> exists k : nat, Z.of_nat k < max_int /\ wf k s.
Proof.
  intros (ops & Hlen & <-). exists (length ops). split; [assumption|].
  apply (run_wf ops 0 New); [apply wf_New|simpl; lia].
Qed.

Lemma reachable_New : reachable New.
Proof.
  exists []. split; [unfold max_int; simpl; lia|reflexivity].
Qed.

(** ** Length *)

Lemma step_len (k : nat) (o : op) (s s' : state) (e : event) :
  wf k s -> Z.of_nat k < max_int -> is_Init o = false ->
  step o s = Ok (e, s') ->
  len (q s') = len (q s) + pushed [e] - popped [e].
Proof.
  intros Hwf Hk Hno. destruct o as [| | |x|]; simpl; unfold bind, ret;
    try discriminate.
  - rewrite Len_eq. intros [= <- <-]. simpl. lia.
  - destruct (Front s) as [[r s0]|] eqn:HF; [|discriminate].
    intros [= <- <-]. apply Front_inv in HF as [-> _]. simpl. lia.
  - destruct (Push x s) as [[[] s0]|] eqn:HP; [|discriminate].
    intros [= <- <-]. apply Push_inv in HP as (t & nd & Ht & Ha & ->).
    destruct (wf_after_Push k x s t nd Hwf Hk Ht Ha) as [_ ->]. simpl. lia.
  - destruct (Pop s) as [[r s0]|] eqn:HP; [|discriminate].
    intros [= <- <-].
    apply Pop_inv in HP
      as [(_ & -> & ->)|(Hnz & a & nd & x & Hh & Ha & _ & Hx & -> & ->)].
    + simpl. lia.
    + destruct (wf_after_Pop k s a nd x Hwf ltac:(lia) Hnz Hh Ha Hx)
        as [_ ->]. simpl. lia.
Qed.

Lemma run_len (ops : list op) : forall (k : nat) (s : state),
  wf k s -> Z.of_nat (k + length ops) <= max_int ->
  forallb (fun o => negb (is_Init o)) ops = true ->
  len (q (final (run ops s))) =
    len (q s) + pushed (trace (run ops s)) - popped (trace (run ops s)).
Proof.
  induction ops as [|o rest IH]; intros k s Hwf Hk Hno; simpl in *.
  - lia.
  - apply andb_prop in Hno as [Ho Hrest]. apply negb_true_iff in Ho.
    destruct (step o s) as [[e s']|f] eqn:Hstep; simpl; [|lia].
    rewrite (IH (S k) s'); [| eapply step_wf; eauto; lia | lia | assumption].
    rewrite (step_len k o s s' e Hwf ltac:(lia) Ho Hstep).
    destruct e as [| | | |y []]; simpl; lia.
Qed.

(** C3. After any sequence of [Push] and [Pop] calls (and of [Len] and
    [Front] calls, which change nothing) on a fresh queue, [Len()] returns
    the number of [Push] calls made minus the number of [Pop] calls that
    returned an element, and that number is not negative.  The calls
    counted are those that returned: a run stops at a panic. *)
Theorem Len_is_pushes_minus_pops (ops : list op) :
  forallb (fun o => negb (is_Init o)) ops = true ->
  Z.of_nat (length ops) <= max_int ->
  Len (final (run ops New)) =
    Ok (pushed (trace (run ops New)) - popped (trace (run ops New)),
        final (run ops New)) /\
  0 <= pushed (trace (run ops New)) - popped (trace (run ops New)).
Proof.
  intros Hno Hk.
  pose proof (run_len ops 0 New wf_New ltac:(simpl; lia) Hno) as Hlen.
  pose proof (run_wf ops 0 New wf_New ltac:(simpl; lia)) as Hwf.
  apply wf_len in Hwf. unfold len_ok in Hwf.
  change (len (q New)) with 0 in Hlen.
  rewrite Len_eq. split; [do 2 f_equal; lia|lia].
Qed.

(** ** The empty queue *)

Lemma run_pops_empty (k : nat) (s : state) :
  len (q s) = 0 ->
  run (pops k) s = mkOutcome (repeat (EPop None false) k) s None.
Proof.
  intros Hz. induction k as [|k IH]; simpl.
  - reflexivity.
  - unfold bind, ret. rewrite Pop_empty by assumption. simpl.
    unfold pops in IH. rewrite IH. reflexivity.
Qed.

(** C4. On a queue whose [Len()] is 0, [Front()] and [Pop()] return nil and
    false and leave the whole store (pointers, counters, every node) as it
    was; so does any number of [Pop()] calls in a row. *)
Theorem empty_Front_Pop (s : state) :
  Len s = Ok (0, s) ->
  Front s = Ok ((None, false), s) /\
  Pop s = Ok ((None, false), s) /\
  forall k : nat,
    run (pops k) s = mkOutcome (repeat (EPop None false) k) s None.
Proof.
  rewrite Len_eq. intros [= Hz].
  split; [apply Front_empty; assumption|].
  split; [apply Pop_empty; assumption|].
  intros k. apply run_pops_empty. assumption.
Qed.

(** ** The read cursor *)

Lemma after_Pop_cursor (s : state) (a : addr) (nd : Node) :
  0 <= pos (q s) <= internalSliceLastPosition ->
  (pos (q s) = internalSliceLastPosition ->
     head (q (after_Pop s a nd)) = n nd /\ pos (q (after_Pop s a nd)) = 0) /\
  (pos (q s) <> internalSliceLastPosition ->
     head (q (after_Pop s a nd)) = head (q s) /\
     pos (q (after_Pop s a nd)) = pos (q s) + 1).
Proof.
  unfold after_Pop, internalSliceLastPosition. intros Hp.
  destruct (Z.geb_spec (pos (q s)) 127) as [Hge|Hlt]; simpl.
  - split; [auto|lia].
  - split; [lia|]. intros _. split; [reflexivity|].
    apply wrap_id. unfold min_int, max_int. lia.
Qed.

(** C7. In every reachable state [q.pos] lies in [0, internalSliceSize).
    [Init] sets it to 0; a [Pop] that returns an element resets it to 0
    when it was at the last position and adds one to it otherwise; no other
    call changes it. *)
Theorem pos_in_range (s : state) :
  reachable s ->
  0 <= pos (q s) < internalSliceSize /\
  forall (o : op) (e : event) (s' : state),
    step o s = Ok (e, s') ->
    match e with
    | EInit => pos (q s') = 0
    | EPop _ true =>
        (pos (q s) = internalSliceLastPosition /\ pos (q s') = 0) \/
        (pos (q s) < internalSliceLastPosition /\
         pos (q s') = pos (q s) + 1)
    | _ => pos (q s') = pos (q s)
    end.
Proof.
  intros Hr. apply reachable_wf in Hr as (k & Hk & Hwf).
  pose proof (wf_pos _ _ Hwf) as Hp. unfold pos_ok in Hp.
  split; [unfold internalSliceSize, internalSliceLastPosition in *; lia|].
  intros o e s'. destruct o as [| | |x|]; simpl; unfold bind, ret.
  - rewrite Init_eq. intros [= <- <-]. reflexivity.
  - rewrite Len_eq. intros [= <- <-]. reflexivity.
  - destruct (Front s) as [[r s0]|] eqn:HF; [|discriminate].
    intros [= <- <-]. apply Front_inv in HF as [-> _]. reflexivity.
  - destruct (Push x s) as [[[] s0]|] eqn:HP; [|discriminate].
    intros [= <- <-]. apply Push_inv in HP as (t & nd & _ & _ & ->).
    unfold after_Push.
    destruct (Z.of_nat (length (v nd)) >=? internalSliceSize); reflexivity.
  - destruct (Pop s) as [[r s0]|] eqn:HP; [|discriminate].
    intros [= <- <-].
    apply Pop_inv in HP
      as [(_ & -> & ->)|(_ & a & nd & x & _ & _ & _ & _ & -> & ->)]; simpl.
    + reflexivity.
    + destruct (after_Pop_cursor s a nd Hp) as [Hlast Hother].
      destruct (Z.eq_dec (pos (q s)) internalSliceLastPosition) as [He|Hne].
      * left. split; [assumption|]. apply Hlast. assumption.
      * right. split; [lia|]. apply Hother. assumption.
Qed.

(** ** Releasing references *)

(** C8. After a [Pop] that returned the value of slot [q.pos] of the head
    node, that slot holds nil; and when [q.pos] was the last position, so
    that the node is retired, all [internalSliceSize] slots of the node
    hold nil. *)
Theorem Pop_clears_slot (s s' : state) (x : value) (a : addr) :
  reachable s -> Pop s = Ok ((x, true), s') -> head (q s) = Some a ->
  exists nd nd' : Node,
    heap s !! a = Some nd /\ v nd !! Z.to_nat (pos (q s)) = Some x /\
    heap s' !! a = Some nd' /\
    v nd' !! Z.to_nat (pos (q s)) = Some None /\
    (pos (q s) = internalSliceLastPosition ->
       v nd' = replicate (Z.to_nat internalSliceSize) None).
Proof.
  intros Hr HP Hh. apply reachable_wf in Hr as (k & Hk & Hwf).
  apply Pop_inv in HP
    as [(_ & [=] & _)|(_ & a' & nd & y & Hh' & Ha & Hp & Hx & [= <-] & ->)].
  rewrite Hh in Hh'. injection Hh' as <-.
  assert (Hlt : (Z.to_nat (pos (q s)) < length (v nd))%nat)
    by (eapply lookup_lt_Some; eauto).
  exists nd. eexists. split; [assumption|]. split; [assumption|].
  split; [apply (after_Pop_lookup_eq s a nd Ha)|]. cbn [v].
  split; [apply list_lookup_insert_eq; assumption|].
  intros He.
  pose proof (wf_blocks _ _ Hwf a nd Ha) as Hsize.
  pose proof (wf_cleared _ _ Hwf a nd) as Hclr.
  unfold internalSliceLastPosition, internalSliceSize in *.
  apply list_eq. intros i.
  destruct (Nat.lt_ge_cases i 128) as [Hi|Hi].
  - change (Z.to_nat 128) with 128%nat.
    rewrite lookup_replicate_2 by assumption.
    destruct (Nat.eq_dec i (Z.to_nat (pos (q s)))) as [->|Hne].
    + apply list_lookup_insert_eq. assumption.
    + rewrite list_lookup_insert_ne by congruence.
      apply Hclr; [assumption|assumption|lia].
  - change (Z.to_nat 128) with 128%nat.
    transitivity (@None value); [|symmetry];
      apply lookup_ge_None_2; rewrite ?length_insert, ?length_replicate; lia.
Qed.

(** ** Push *)

(** [Push] never panics in a reachable state. *)
Lemma Push_reachable (s : state) (x : value) :
  reachable s ->
  exists (k : nat) (t : addr) (nd : Node),
    Z.of_nat k < max_int /\ wf k s /\
    tail (q s) = Some t /\ heap s !! t = Some nd /\
    Push x s = Ok (tt, after_Push x s t nd).
Proof.
  intros Hr. apply reachable_wf in Hr as (k & Hk & Hwf).
  destruct (wf_tail _ _ Hwf) as (t & nd & Ht & Ha).
  exists k, t, nd.
  split; [assumption|]. split; [assumption|].
  split; [assumption|]. split; [assumption|].
  apply Push_eq; assumption.
Qed.

Lemma after_Push_tail (x : value) (s : state) (t : addr) (nd : Node) :
  tail (q s) = Some t ->
  tail (q (after_Push x s t nd)) =
    if Z.of_nat (length (v nd)) >=? internalSliceSize
    then Some (length (heap s)) else Some t.
Proof.
  intros Ht. unfold after_Push.
  destruct (Z.of_nat (length (v nd)) >=? internalSliceSize); simpl; auto.
Qed.

(** C6. [Push(x)] in a reachable state returns, and [q.len] grows by one.
    When the tail node holds [internalSliceSize] values, a node that was
    not in the heap is allocated, the old tail's [n] points to it, it is
    the new tail and it holds [x] alone; the old tail's slots stay.
    Otherwise [x] is appended to the tail node's slots and no node is
    allocated.  Every other node is unchanged, and every slot of every
    node keeps its position and its value. *)
Theorem Push_step (s : state) (x : value) :
  reachable s ->
  exists (t : addr) (nd : Node) (s' : state),
    tail (q s) = Some t /\ heap s !! t = Some nd /\
    Push x s = Ok (tt, s') /\
    len (q s') = len (q s) + 1 /\
    (Z.of_nat (length (v nd)) = internalSliceSize ->
       heap s !! length (heap s) = None /\
       heap s' !! t = Some (mkNode (v nd) (Some (length (heap s)))) /\
       tail (q s') = Some (length (heap s)) /\
       heap s' !! length (heap s) = Some (mkNode [x] None)) /\
    (Z.of_nat (length (v nd)) <> internalSliceSize ->
       length (heap s') = length (heap s) /\
       tail (q s') = Some t /\
       heap s' !! t = Some (mkNode (v nd ++ [x]) (n nd))) /\
    (forall (b : addr) (ndb : Node),
       b <> t -> heap s !! b = Some ndb -> heap s' !! b = Some ndb) /\
    (forall (b : addr) (ndb : Node) (i : nat) (y : value),
       heap s !! b = Some ndb -> v ndb !! i = Some y ->
       exists ndb', heap s' !! b = Some ndb' /\ v ndb' !! i = Some y).
Proof.
  intros Hr.
  destruct (Push_reachable s x Hr) as (k & t & nd & Hk & Hwf & Ht & Ha & HP).
  exists t, nd, (after_Push x s t nd).
  split; [assumption|]. split; [assumption|]. split; [assumption|].
  split; [apply (wf_after_Push k x s t nd Hwf Hk Ht Ha)|].
  pose proof (wf_blocks _ _ Hwf t nd Ha) as Hsize.
  pose proof (after_Push_lookup_tail x s t nd Ha) as Hlt.
  pose proof (after_Push_tail x s t nd Ht) as Htl.
  pose proof (after_Push_length x s t nd) as Hlength.
  assert (Hother : forall (b : addr) (ndb : Node),
             b <> t -> heap s !! b = Some ndb ->
             heap (after_Push x s t nd) !! b = Some ndb).
  { intros b ndb Hne Hb.
    rewrite (after_Push_lookup_other x s t b nd Ha Hne); [assumption|].
    eapply lookup_lt_Some; eauto. }
  repeat split.
  - apply lookup_ge_None_2. lia.
  - destruct (Z.geb_spec (Z.of_nat (length (v nd))) internalSliceSize);
      [assumption|lia].
  - destruct (Z.geb_spec (Z.of_nat (length (v nd))) internalSliceSize);
      [assumption|lia].
  - apply after_Push_lookup_new; [assumption|lia].
  - destruct (Z.geb_spec (Z.of_nat (length (v nd))) internalSliceSize);
      [lia|assumption].
  - destruct (Z.geb_spec (Z.of_nat (length (v nd))) internalSliceSize);
      [lia|assumption].
  - destruct (Z.geb_spec (Z.of_nat (length (v nd))) internalSliceSize);
      [lia|assumption].
  - assumption.
  - intros b ndb i y Hb Hy.
    destruct (Nat.eq_dec b t) as [->|Hne].
    + rewrite Ha in Hb. injection Hb as <-. rewrite Hlt.
      eexists. split; [reflexivity|].
      destruct (Z.of_nat (length (v nd)) >=? internalSliceSize); simpl;
        [assumption|].
      apply lookup_app_l_Some. assumption.
    + exists ndb. split; [apply Hother; assumption|assumption].
Qed.

(** C10. In every reachable state no node holds more than
    [internalSliceSize] values.  [Push] leaves the slots of every node that
    holds [internalSliceSize] values as they are; when the tail is such a
    node, the pushed value goes to a node that was not in the heap before
    and that becomes the tail. *)
Theorem block_size_bound (s : state) :
  reachable s ->
  (forall (a : addr) (nd : Node),
     heap s !! a = Some nd ->
     Z.of_nat (length (v nd)) <= internalSliceSize) /\
  forall x : value, exists s' : state,
    Push x s = Ok (tt, s') /\
    (forall (a : addr) (nd : Node),
       heap s !! a = Some nd ->
       Z.of_nat (length (v nd)) = internalSliceSize ->
       exists nd', heap s' !! a = Some nd' /\ v nd' = v nd) /\
    (forall (t : addr) (nd : Node),
       tail (q s) = Some t -> heap s !! t = Some nd ->
       Z.of_nat (length (v nd)) = internalSliceSize ->
       heap s !! length (heap s) = None /\
       tail (q s') = Some (length (heap s)) /\
       heap s' !! length (heap s) = Some (mkNode [x] None)).
Proof.
  intros Hr. split.
  - apply reachable_wf in Hr as (k & _ & Hwf). apply (wf_blocks _ _ Hwf).
  - intros x.
    destruct (Push_reachable s x Hr) as (k & t & nd & Hk & Hwf & Ht & Ha & HP).
    exists (after_Push x s t nd). split; [assumption|]. split.
    + intros a nda Hl Hfull.
      destruct (Nat.eq_dec a t) as [->|Hne].
      * rewrite Ha in Hl. injection Hl as <-.
        rewrite (after_Push_lookup_tail x s t nd Ha).
        eexists. split; [reflexivity|].
        destruct (Z.geb_spec (Z.of_nat (length (v nd))) internalSliceSize);
          [reflexivity|lia].
      * exists nda. split; [|reflexivity].
        rewrite (after_Push_lookup_other x s t a nd Ha Hne); [assumption|].
        eapply lookup_lt_Some; eauto.
    + intros t' nd' Ht' Hl Hfull.
      rewrite Ht in Ht'. injection Ht' as <-.
      rewrite Ha in Hl. injection Hl as <-.
      split; [apply lookup_ge_None_2; lia|].
      split.
      * rewrite (after_Push_tail x s t nd Ht).
        destruct (Z.geb_spec (Z.of_nat (length (v nd))) internalSliceSize);
          [reflexivity|lia].
      * apply after_Push_lookup_new; [assumption|lia].
Qed.

(** ** Chains of nodes *)

Lemma first_addr_snoc (pre : list (addr * list value)) (t : addr)
    (vs : list value) (nxt : option addr) :
  first_addr (pre ++ [(t, vs)]) nxt = first_addr pre (Some t).
Proof. destruct pre as [|[a b] rest]; reflexivity. Qed.

Lemma lseg_bound (h : list Node) (ch : list (addr * list value))
    (nxt : option addr) (a : addr) :
  lseg h ch nxt -> a ∈ ch.*1 -> (a < length h)%nat.
Proof.
  induction ch as [|[b vs] rest IH]; simpl.
  - intros _ []%elem_of_nil.
  - intros [Hb Hrest] [->|Hin]%elem_of_cons.
    + eapply lookup_lt_Some; eauto.
    + auto.
Qed.

Lemma lseg_insert (h : list Node) (ch : list (addr * list value))
    (nxt : option addr) (a : addr) (nd : Node) :
  lseg h ch nxt -> a ∉ ch.*1 -> lseg (<[a := nd]> h) ch nxt.
Proof.
  induction ch as [|[b vs] rest IH]; simpl; [tauto|].
  intros [Hb Hrest] [Hne Hnot]%not_elem_of_cons. split.
  - rewrite list_lookup_insert_ne by assumption. assumption.
  - apply IH; assumption.
Qed.

Lemma lseg_grow (h : list Node) (ch : list (addr * list value))
    (nxt : option addr) (l : list Node) :
  lseg h ch nxt -> lseg (h ++ l) ch nxt.
Proof.
  induction ch as [|[b vs] rest IH]; simpl; [tauto|].
  intros [Hb Hrest]. split; [|auto].
  apply lookup_app_l_Some. assumption.
Qed.

Lemma lseg_snoc (h : list Node) (pre : list (addr * list value))
    (t : addr) (vs : list value) (nxt : option addr) :
  lseg h pre (Some t) -> h !! t = Some (mkNode vs nxt) ->
  lseg h (pre ++ [(t, vs)]) nxt.
Proof.
  induction pre as [|[b ws] rest IH]; simpl.
  - auto.
  - intros [Hb Hrest] Ht. rewrite first_addr_snoc. auto.
Qed.

Lemma slots_of_snoc (pre : list (addr * list value)) (t : addr)
    (vs ws : list value) :
  slots_of (pre ++ [(t, vs)]) ws = slots_of pre vs ++ ws.
Proof.
  unfold slots_of. rewrite fmap_app, concat_app. simpl.
  rewrite app_nil_r, <- app_assoc. reflexivity.
Qed.

Lemma slots_of_length (pre : list (addr * list value)) (vs : list value) :
  Forall (fun b => Z.of_nat (length (snd b)) = internalSliceSize) pre ->
  Z.of_nat (length (slots_of pre vs)) =
    internalSliceSize * Z.of_nat (length pre) + Z.of_nat (length vs).
Proof.
  unfold slots_of. induction 1 as [|[a b] rest Hb _ IH]; csimpl in *.
  - lia.
  - rewrite <- app_assoc, length_app.
    replace (Z.of_nat (S (length rest))) with (Z.of_nat (length rest) + 1)
      by lia.
    unfold internalSliceSize in *. lia.
Qed.

Lemma chained_after_Init (s : state) :
  chained (after_Init s) [] (length (heap s)) [].
Proof.
  unfold after_Init. constructor; simpl; try reflexivity; try exact I.
  - rewrite lookup_app_r by lia. rewrite Nat.sub_diag. reflexivity.
  - apply NoDup_singleton.
  - constructor.
  - unfold internalSliceSize. lia.
  - unfold internalSliceLastPosition. lia.
  - unfold max_int. lia.
Qed.

Lemma chained_New : chained New [] 0%nat [].
Proof. exact (chained_after_Init zero). Qed.

Lemma chained_tail_fresh (s : state) (pre : list (addr * list value))
    (t : addr) (vs : list value) :
  chained s pre t vs ->
  (t ∉ pre.*1) /\ (t < length (heap s))%nat /\
  forall a, a ∈ pre.*1 -> (a < length (heap s))%nat.
Proof.
  intros Hc. split; [|split].
  - pose proof (ch_nodup _ _ _ _ Hc) as Hnd.
    apply NoDup_app in Hnd as (_ & Hdisj & _).
    intros Hin. apply (Hdisj t Hin). apply list_elem_of_singleton. reflexivity.
  - eapply lookup_lt_Some. apply (ch_last _ _ _ _ Hc).
  - intros a Hin. eapply lseg_bound; [apply (ch_lseg _ _ _ _ Hc)|assumption].
Qed.

(** [Push] keeps the chained shape: it appends to the tail node, or makes
    the full tail node the last node of [pre] and starts a new tail. *)
Lemma chained_after_Push (x : value) (s : state)
    (pre : list (addr * list value)) (t : addr) (vs : list value) :
  chained s pre t vs -> len (q s) < max_int ->
  exists pre' t' vs',
    chained (after_Push x s t (mkNode vs None)) pre' t' vs' /\
    slots_of pre' vs' = slots_of pre vs ++ [x] /\
    pos (q (after_Push x s t (mkNode vs None))) = pos (q s) /\
    (1 <= length vs')%nat.
Proof.
  intros Hc Hlen.
  destruct (chained_tail_fresh s pre t vs Hc) as (Ht_notin & Ht_lt & Hpre_lt).
  destruct Hc as [Htl Hhd Hseg Hlast Hnd Hfull Hsize Hpos Hl Hint].
  pose proof (after_Push_lookup_tail x s t _ Hlast) as Hnew_t.
  pose proof (after_Push_tail x s t (mkNode vs None) Htl) as Hnew_tl.
  assert (Hw : wrap (len (q s) + 1) = len (q s) + 1)
    by (apply wrap_id; unfold min_int, max_int in *; lia).
  destruct (Z.geb_spec (Z.of_nat (length (v (mkNode vs None))))
              internalSliceSize) as [Hge|Hlt]; cbn [v n] in *.
  - (* the tail is full: a new node *)
    pose proof (after_Push_lookup_new x s t _ Hlast ltac:(simpl; lia)) as Hnew.
    exists (pre ++ [(t, vs)]), (length (heap s)), [x].
    assert (Hq : q (after_Push x s t (mkNode vs None)) =
                 mkQueue (head (q s)) (Some (length (heap s))) (pos (q s))
                   (len (q s) + 1)).
    { unfold after_Push. cbn [v].
      destruct (Z.geb_spec (Z.of_nat (length vs)) internalSliceSize);
        [|lia]. simpl. rewrite Hw. reflexivity. }
    split; [|split; [apply slots_of_snoc|split; [rewrite Hq; reflexivity|simpl; lia]]].
    constructor; rewrite ?Hq; cbn [head tail pos len].
    + reflexivity.
    + rewrite first_addr_snoc. assumption.
    + apply lseg_snoc; [|assumption].
      unfold after_Push. cbn [v].
      destruct (Z.geb_spec (Z.of_nat (length vs)) internalSliceSize);
        [|lia]. cbn [heap].
      apply lseg_insert.
      * apply lseg_insert; [|assumption]. apply lseg_grow. assumption.
      * intros Hin. specialize (Hpre_lt _ Hin). lia.
    + assumption.
    + rewrite fmap_app. simpl. apply NoDup_app.
      split; [assumption|]. split; [|apply NoDup_singleton].
      intros a Hin Ha. apply list_elem_of_singleton in Ha. subst a.
      apply elem_of_app in Hin as [Hin|Hin].
      * specialize (Hpre_lt _ Hin). lia.
      * apply list_elem_of_singleton in Hin. lia.
    + apply Forall_app. split; [assumption|].
      constructor; [simpl; lia|constructor].
    + simpl. unfold internalSliceSize. lia.
    + assumption.
    + rewrite slots_of_snoc, length_app. simpl. lia.
    + lia.
  - (* room in the tail *)
    exists pre, t, (vs ++ [x]).
    assert (Hq : q (after_Push x s t (mkNode vs None)) =
                 mkQueue (head (q s)) (Some t) (pos (q s)) (len (q s) + 1)).
    { unfold after_Push. cbn [v].
      destruct (Z.geb_spec (Z.of_nat (length vs)) internalSliceSize);
        [lia|]. simpl. rewrite Hw, Htl. reflexivity. }
    assert (Hslots : slots_of pre (vs ++ [x]) = slots_of pre vs ++ [x])
      by (unfold slots_of; apply app_assoc).
    split; [|split; [assumption|split; [rewrite Hq; reflexivity|]]].
    2:{ rewrite length_app. simpl. lia. }
    constructor; rewrite ?Hq; cbn [head tail pos len].
    + reflexivity.
    + assumption.
    + unfold after_Push. cbn [v].
      destruct (Z.geb_spec (Z.of_nat (length vs)) internalSliceSize);
        [lia|]. cbn [heap].
      apply lseg_insert; assumption.
    + assumption.
    + assumption.
    + assumption.
    + rewrite length_app. simpl. lia.
    + assumption.
    + rewrite Hslots, length_app. simpl. lia.
    + lia.
Qed.

Lemma after_Pop_last (s : state) (a : addr) (nd : Node) :
  0 <= len (q s) <= max_int -> len (q s) <> 0 ->
  pos (q s) = internalSliceLastPosition ->
  after_Pop s a nd =
    mkState (<[a := mkNode (<[Z.to_nat (pos (q s)) := None]> (v nd)) None]>
               (heap s))
            (mkQueue (n nd) (tail (q s)) 0 (len (q s) - 1)).
Proof.
  intros Hint Hnz Hp. unfold after_Pop. rewrite Hp. simpl.
  rewrite wrap_id by (unfold min_int, max_int in *; lia). reflexivity.
Qed.

Lemma after_Pop_inner (s : state) (a : addr) (nd : Node) :
  0 <= len (q s) <= max_int -> len (q s) <> 0 ->
  0 <= pos (q s) < internalSliceLastPosition ->
  after_Pop s a nd =
    mkState (<[a := mkNode (<[Z.to_nat (pos (q s)) := None]> (v nd)) (n nd)]>
               (heap s))
            (mkQueue (head (q s)) (tail (q s)) (pos (q s) + 1)
               (len (q s) - 1)).
Proof.
  intros Hint Hnz Hp. unfold after_Pop.
  destruct (Z.geb_spec (pos (q s)) internalSliceLastPosition); [lia|].
  rewrite !wrap_id
    by (unfold min_int, max_int, internalSliceLastPosition in *; lia).
  reflexivity.
Qed.

(** [Pop] on a chained queue that is not empty returns the slot at [q.pos]
    and leaves one of three shapes. *)
Lemma chained_Pop (s : state) (pre : list (addr * list value)) (t : addr)
    (vs : list value) :
  chained s pre t vs -> len (q s) <> 0 ->
  exists (x : value) (s' : state),
    Pop s = Ok ((x, true), s') /\
    slots_of pre vs !! Z.to_nat (pos (q s)) = Some x /\
    len (q s') = len (q s) - 1 /\
    ((pos (q s) < internalSliceLastPosition /\
      pos (q s') = pos (q s) + 1 /\
      exists pre' vs',
        chained s' pre' t vs' /\
        length pre' = length pre /\ length vs' = length vs /\
        drop (S (Z.to_nat (pos (q s)))) (slots_of pre' vs') =
        drop (S (Z.to_nat (pos (q s)))) (slots_of pre vs))
     \/
     (pos (q s) = internalSliceLastPosition /\
      pos (q s') = 0 /\
      exists a b rest,
        pre = (a, b) :: rest /\ chained s' rest t vs /\
        slots_of rest vs =
        drop (S (Z.to_nat (pos (q s)))) (slots_of pre vs))
     \/
     (pos (q s) = internalSliceLastPosition /\
      pre = [] /\ headless s' /\ tail (q s') = Some t /\
      Z.of_nat (length vs) = internalSliceSize)).
Proof.
  intros Hc Hnz.
  destruct (chained_tail_fresh s pre t vs Hc) as (Ht_notin & Ht_lt & Hpre_lt).
  destruct Hc as [Htl Hhd Hseg Hlast Hnd Hfull Hsize Hpos Hl Hint].
  unfold internalSliceLastPosition, internalSliceSize in *.
  destruct pre as [|[a b] rest].
  - (* a single node *)
    unfold slots_of in *. simpl in Hl, Hhd |- *.
    assert (is_Some (vs !! Z.to_nat (pos (q s)))) as [x Hx]
      by (apply lookup_lt_is_Some; lia).
    exists x, (after_Pop s t (mkNode vs None)).
    split; [apply Pop_eq; (assumption || lia)|].
    split; [assumption|].
    destruct (Z.eq_dec (pos (q s)) 127) as [He|Hne].
    + rewrite after_Pop_last by (assumption || lia). simpl.
      split; [reflexivity|]. right. right.
      split; [assumption|]. split; [reflexivity|].
      split; [split; reflexivity|]. split; [assumption|lia].
    + rewrite after_Pop_inner
        by (unfold internalSliceLastPosition; assumption || lia). simpl.
      split; [reflexivity|]. left.
      split; [lia|]. split; [reflexivity|].
      exists [], (<[Z.to_nat (pos (q s)) := None]> vs).
      split; [|split; [reflexivity|split; [apply length_insert|]]].
      * constructor; simpl; try assumption; try exact I;
          try (unfold internalSliceLastPosition; lia).
        -- apply list_lookup_insert_eq. assumption.
        -- rewrite length_insert. assumption.
        -- unfold slots_of. simpl. rewrite length_insert. lia.
      * apply drop_insert_lt. lia.
  - (* several nodes: the head node is full *)
    simpl in Hseg, Hhd. destruct Hseg as [Ha Hseg].
    apply Forall_cons in Hfull as [Hb Hfull]. simpl in Hb.
    assert (Hslots : slots_of ((a, b) :: rest) vs = b ++ slots_of rest vs)
      by (unfold slots_of; csimpl; rewrite app_assoc; reflexivity).
    rewrite Hslots in *. rewrite length_app in Hl.
    assert (Hp_lt : (Z.to_nat (pos (q s)) < length b)%nat) by lia.
    assert (is_Some (b !! Z.to_nat (pos (q s)))) as [x Hx]
      by (apply lookup_lt_is_Some; assumption).
    csimpl in Hnd. apply NoDup_cons in Hnd as [Ha_notin Hnd'].
    assert (Hat : a <> t).
    { intros ->. apply Ha_notin. apply elem_of_app. right.
      apply list_elem_of_singleton. reflexivity. }
    assert (Ha_rest : a ∉ rest.*1).
    { intros Hin. apply Ha_notin. apply elem_of_app. left. assumption. }
    exists x, (after_Pop s a (mkNode b (first_addr rest (Some t)))).
    split; [apply Pop_eq; (assumption || lia)|].
    split; [apply lookup_app_l_Some; assumption|].
    destruct (Z.eq_dec (pos (q s)) 127) as [He|Hne].
    + rewrite after_Pop_last by (assumption || lia). simpl.
      split; [reflexivity|]. right. left.
      split; [assumption|]. split; [reflexivity|].
      exists a, b, rest. split; [reflexivity|]. split.
      * constructor; simpl; try assumption; try reflexivity;
          try (unfold internalSliceLastPosition; lia).
        -- apply lseg_insert; assumption.
        -- rewrite list_lookup_insert_ne by assumption. assumption.
      * symmetry. apply drop_app_length'. lia.
    + rewrite after_Pop_inner
        by (unfold internalSliceLastPosition; assumption || lia). simpl.
      split; [reflexivity|]. left.
      split; [lia|]. split; [reflexivity|].
      exists ((a, <[Z.to_nat (pos (q s)) := None]> b) :: rest), vs.
      assert (Hslots' :
        slots_of ((a, <[Z.to_nat (pos (q s)) := None]> b) :: rest) vs =
        <[Z.to_nat (pos (q s)) := None]> (b ++ slots_of rest vs)).
      { unfold slots_of. csimpl. rewrite <- app_assoc.
        symmetry. apply insert_app_l. assumption. }
      split; [|split; [reflexivity|split; [reflexivity|]]].
      * constructor; simpl; try assumption; try reflexivity;
          try (unfold internalSliceLastPosition; lia).
        -- split.
           ++ apply list_lookup_insert_eq. eapply lookup_lt_Some; eauto.
           ++ apply lseg_insert; assumption.
        -- rewrite list_lookup_insert_ne by assumption. assumption.
        -- csimpl. apply NoDup_cons. split; assumption.
        -- constructor; [simpl; rewrite length_insert; assumption|assumption].
        -- rewrite Hslots', length_insert, length_app. lia.
      * rewrite Hslots'. apply drop_insert_lt. lia.
Qed.

(** ** Runs of pushes and of pops *)

Lemma run_app (ops1 ops2 : list op) : forall s : state,
  crash (run ops1 s) = None ->
  run (ops1 ++ ops2) s =
    mkOutcome (trace (run ops1 s) ++ trace (run ops2 (final (run ops1 s))))
              (final (run ops2 (final (run ops1 s))))
              (crash (run ops2 (final (run ops1 s)))).
Proof.
  induction ops1 as [|o rest IH]; intros s Hc; simpl in *.
  - destruct (run ops2 s). reflexivity.
  - destruct (step o s) as [[e s']|f]; simpl in *; [|discriminate].
    rewrite (IH s' Hc). reflexivity.
Qed.

Lemma run_pushes_chained (xs : list value) :
  forall (s : state) (pre : list (addr * list value)) (t : addr)
         (vs : list value),
  chained s pre t vs ->
  len (q s) + Z.of_nat (length xs) <= max_int ->
  exists s' pre' t' vs',
    run (pushes xs) s = mkOutcome (repeat EPush (length xs)) s' None /\
    chained s' pre' t' vs' /\
    slots_of pre' vs' = slots_of pre vs ++ xs /\
    pos (q s') = pos (q s) /\
    (xs <> [] -> (1 <= length vs')%nat).
Proof.
  unfold pushes.
  induction xs as [|x rest IH]; intros s pre t vs Hc Hlen; simpl in *.
  - exists s, pre, t, vs. rewrite app_nil_r.
    split; [reflexivity|]. split; [assumption|].
    split; [reflexivity|]. split; [reflexivity|congruence].
  - unfold bind, ret.
    rewrite (Push_eq x s t (mkNode vs None))
      by (apply (ch_tail _ _ _ _ Hc) || apply (ch_last _ _ _ _ Hc)).
    destruct (chained_after_Push x s pre t vs Hc ltac:(lia))
      as (pre1 & t1 & vs1 & Hc1 & Hslots1 & Hpos1 & Hvs1).
    set (s1 := after_Push x s t (mkNode vs None)) in *.
    assert (Hlen1 : len (q s1) = len (q s) + 1).
    { rewrite (ch_len _ _ _ _ Hc1), (ch_len _ _ _ _ Hc), Hslots1, Hpos1.
      rewrite length_app. simpl. lia. }
    destruct (IH s1 pre1 t1 vs1 Hc1 ltac:(lia))
      as (s' & pre' & t' & vs' & Hrun & Hc' & Hslots' & Hpos' & Hvs').
    exists s', pre', t', vs'. rewrite Hrun. simpl.
    split; [reflexivity|]. split; [assumption|].
    split; [rewrite Hslots', Hslots1, <- app_assoc; reflexivity|].
    split; [congruence|].
    intros _. destruct rest as [|y rest'].
    + simpl in Hrun. injection Hrun as <-.
      rewrite app_nil_r in Hslots'.
      assert (Hlast : heap s1 !! t' = Some (mkNode vs' None))
        by apply (ch_last _ _ _ _ Hc').
      assert (Htl : Some t' = Some t1).
      { rewrite <- (ch_tail _ _ _ _ Hc'). apply (ch_tail _ _ _ _ Hc1). }
      injection Htl as ->. rewrite (ch_last _ _ _ _ Hc1) in Hlast.
      injection Hlast as <-. assumption.
    + apply Hvs'. discriminate.
Qed.

Lemma run_pops_chained (l : list value) :
  forall (s : state) (pre : list (addr * list value)) (t : addr)
         (vs : list value),
  chained s pre t vs ->
  l = drop (Z.to_nat (pos (q s))) (slots_of pre vs) ->
  exists s',
    run (pops (length l)) s =
      mkOutcome (map (fun x => EPop x true) l) s' None /\
    len (q s') = 0 /\
    (Z.of_nat (length vs) = internalSliceSize -> l <> [] -> headless s').
Proof.
  unfold pops.
  induction l as [|x l' IH]; intros s pre t vs Hc Hl.
  - exists s. simpl. split; [reflexivity|]. split; [|congruence].
    pose proof (ch_len _ _ _ _ Hc) as Hlen.
    pose proof (ch_int _ _ _ _ Hc) as Hint.
    pose proof (ch_pos _ _ _ _ Hc) as Hpos.
    apply (f_equal length) in Hl. rewrite length_drop in Hl. simpl in Hl.
    lia.
  - assert (Hnz : len (q s) <> 0).
    { pose proof (ch_len _ _ _ _ Hc) as Hlen.
      pose proof (ch_pos _ _ _ _ Hc) as Hpos.
      apply (f_equal length) in Hl. rewrite length_drop in Hl. simpl in Hl.
      lia. }
    destruct (chained_Pop s pre t vs Hc Hnz)
      as (y & s1 & HP & Hy & Hlen1 & Hcases).
    rewrite (drop_S _ _ _ Hy) in Hl. injection Hl as -> ->.
    simpl. unfold bind, ret. rewrite HP. simpl.
    pose proof (ch_pos _ _ _ _ Hc) as Hpos.
    destruct Hcases
      as [(Hp & Hp1 & pre' & vs' & Hc1 & Hlpre & Hlvs & Hdrop)
         |[(Hp & Hp1 & a & b & rest & -> & Hc1 & Hdrop)
          |(Hp & -> & Hhl & Htl & Hvs)]].
    + destruct (IH s1 pre' t vs' Hc1) as (s' & Hrun & Hlen' & Hhead).
      { rewrite Hp1, <- Hdrop. f_equal. lia. }
      rewrite Hrun. simpl.
      exists s'. split; [reflexivity|]. split; [assumption|].
      intros Hfull _. apply Hhead; [lia|].
      intros Hnil. apply (f_equal length) in Hnil.
      rewrite length_drop in Hnil. simpl in Hnil.
      pose proof (slots_of_length pre vs (ch_full _ _ _ _ Hc)) as Hsl.
      unfold internalSliceLastPosition, internalSliceSize in *. lia.
    + destruct (IH s1 rest t vs Hc1) as (s' & Hrun & Hlen' & Hhead).
      { rewrite Hp1, <- Hdrop. reflexivity. }
      rewrite Hrun. simpl.
      exists s'. split; [reflexivity|]. split; [assumption|].
      intros Hfull _. apply Hhead; [assumption|].
      rewrite <- Hdrop. intros Hnil. apply (f_equal length) in Hnil.
      pose proof (ch_full _ _ _ _ Hc1) as Hf.
      pose proof (slots_of_length rest vs Hf) as Hsl. simpl in Hnil.
      unfold internalSliceSize in *. lia.
    + pose proof (ch_len _ _ _ _ Hc) as Hlen.
      unfold slots_of in *. simpl in *.
      rewrite drop_ge
        by (unfold internalSliceLastPosition, internalSliceSize in *; lia).
      simpl. exists s1. split; [reflexivity|].
      split; [|auto].
      unfold internalSliceLastPosition, internalSliceSize in *. lia.
Qed.

(** C1. First in, first out: pushing [xs] into a fresh queue and then
    calling [Pop] as many times as there are values returns the values of
    [xs], in the order they were pushed, each with [true]; no call
    panics. *)
Theorem FIFO_order (xs : list value) :
  Z.of_nat (length xs) <= max_int ->
  trace (run (pushes xs ++ pops (length xs)) New) =
    repeat EPush (length xs) ++ map (fun x => EPop x true) xs /\
  crash (run (pushes xs ++ pops (length xs)) New) = None.
Proof.
  intros Hlen.
  destruct (run_pushes_chained xs New [] 0%nat [] chained_New)
    as (s1 & pre & t & vs & Hrun & Hc & Hslots & Hpos & _).
  { change (len (q New)) with 0. lia. }
  destruct (run_pops_chained xs s1 pre t vs Hc) as (s2 & Hrun2 & _).
  { rewrite Hslots, Hpos. reflexivity. }
  rewrite run_app by (rewrite Hrun; reflexivity).
  rewrite Hrun. simpl. rewrite Hrun2. simpl. auto.
Qed.

(** C9. [Front] and [Pop] look at [q.len] first: when it is 0 they return
    nil and false whatever [q.head] is.  Pushing a positive multiple of
    [internalSliceSize] values into a fresh queue and popping them all
    leaves a reachable state with [Len()] 0 and a nil [q.head], and there
    [Front] and [Pop] return nil and false instead of panicking. *)
Theorem empty_with_nil_head (m : nat) (xs : list value) (s : state) :
  length xs = (Z.to_nat internalSliceSize * S m)%nat ->
  2 * Z.of_nat (length xs) < max_int ->
  s = final (run (pushes xs ++ pops (length xs)) New) ->
  (forall s0 : state,
     len (q s0) = 0 ->
     Front s0 = Ok ((None, false), s0) /\ Pop s0 = Ok ((None, false), s0)) /\
  reachable s /\ Len s = Ok (0, s) /\ head (q s) = None /\
  Front s = Ok ((None, false), s) /\ Pop s = Ok ((None, false), s).
Proof.
  intros Hxs Hlen ->.
  split; [intros s0 Hz; split; [apply Front_empty|apply Pop_empty]; assumption|].
  split.
  { exists (pushes xs ++ pops (length xs)). split; [|reflexivity].
    unfold pushes, pops.
    rewrite length_app, length_map, repeat_length. lia. }
  destruct (run_pushes_chained xs New [] 0%nat [] chained_New)
    as (s1 & pre & t & vs & Hrun & Hc & Hslots & Hpos & Hvs).
  { change (len (q New)) with 0. lia. }
  destruct (run_pops_chained xs s1 pre t vs Hc) as (s2 & Hrun2 & Hz & Hhl).
  { rewrite Hslots, Hpos. reflexivity. }
  rewrite run_app by (rewrite Hrun; reflexivity).
  rewrite Hrun. simpl. rewrite Hrun2. simpl.
  assert (Hne : xs <> []).
  { intros ->. simpl in Hxs. unfold internalSliceSize in Hxs. lia. }
  assert (Hfull : Z.of_nat (length vs) = internalSliceSize).
  { pose proof (slots_of_length pre vs (ch_full _ _ _ _ Hc)) as Hsl.
    pose proof (ch_size _ _ _ _ Hc) as Hsize.
    specialize (Hvs Hne).
    rewrite Hslots in Hsl. simpl in Hsl. rewrite Hxs in Hsl.
    unfold internalSliceSize in *. lia. }
  destruct (Hhl Hfull Hne) as [Hh _].
  rewrite Len_eq, Hz.
  split; [reflexivity|]. split; [assumption|].
  split; [apply Front_empty|apply Pop_empty]; assumption.
Qed.

(** ** The two shapes of a reachable state, and the only panic *)

Lemma step_shape (k : nat) (o : op) (s s' : state) (e : event) :
  wf k s -> Z.of_nat k < max_int -> shape s ->
  step o s = Ok (e, s') -> shape s'.
Proof.
  intros Hwf Hk Hs. destruct o as [| | |x|]; simpl; unfold bind, ret.
  - rewrite Init_eq. intros [= _ <-]. left.
    exists [], (length (heap s)), []. apply chained_after_Init.
  - rewrite Len_eq. intros [= _ <-]. assumption.
  - destruct (Front s) as [[r s0]|] eqn:HF; [|discriminate].
    intros [= _ <-]. apply Front_inv in HF as [-> _]. assumption.
  - destruct (Push x s) as [[[] s0]|] eqn:HP; [|discriminate].
    intros [= _ <-]. apply Push_inv in HP as (t & nd & Ht & Ha & ->).
    destruct Hs as [(pre & t' & vs & Hc)|[Hh Hp]].
    + left.
      assert (Htt : Some t' = Some t)
        by (rewrite <- Ht; symmetry; apply (ch_tail _ _ _ _ Hc)).
      injection Htt as ->.
      assert (Hnd : Some nd = Some (mkNode vs None))
        by (rewrite <- Ha; apply (ch_last _ _ _ _ Hc)).
      injection Hnd as ->.
      pose proof (wf_len _ _ Hwf) as Hl. unfold len_ok in Hl.
      destruct (chained_after_Push x s pre t vs Hc ltac:(lia))
        as (pre' & t' & vs' & Hc' & _).
      eauto.
    + right. unfold headless, after_Push.
      destruct (Z.of_nat (length (v nd)) >=? internalSliceSize); simpl; auto.
  - destruct (Pop s) as [[r s0]|] eqn:HP; [|discriminate].
    intros [= _ <-].
    destruct (Z.eq_dec (len (q s)) 0) as [Hz|Hnz].
    { rewrite Pop_empty in HP by assumption. injection HP as _ <-.
      assumption. }
    destruct Hs as [(pre & t & vs & Hc)|[Hh Hp]].
    + destruct (chained_Pop s pre t vs Hc Hnz) as (y & s1 & HP1 & _ & _ & Hcases).
      rewrite HP1 in HP. injection HP as _ <-.
      destruct Hcases
        as [(_ & _ & pre' & vs' & Hc1 & _)
           |[(_ & _ & a & b & rest & _ & Hc1 & _)
            |(_ & _ & Hhl & _)]].
      * left. eauto.
      * left. eauto.
      * right. assumption.
    + rewrite Pop_nil_head in HP by assumption. discriminate.
Qed.

Lemma run_shape (ops : list op) : forall (k : nat) (s : state),
  wf k s -> shape s -> Z.of_nat (k + length ops) <= max_int ->
  shape (final (run ops s)).
Proof.
  induction ops as [|o rest IH]; intros k s Hwf Hs Hk; simpl in *.
  - assumption.
  - destruct (step o s) as [[e s']|f] eqn:Hstep; simpl; [|assumption].
    apply (IH (S k)); [| |lia].
    + eapply step_wf; eauto. lia.
    + eapply step_shape; eauto. lia.
Qed.

Lemma reachable_shape (s : state) : reachable s -> shape s.
Proof.
  intros (ops & Hlen & <-).
  apply (run_shape ops 0 New); [apply wf_New| |simpl; lia].
  left. exists [], 0%nat, []. apply chained_New.
Qed.

Lemma first_addr_elem (ch : list (addr * list value)) (t c : addr) :
  first_addr ch (Some t) = Some c -> c ∈ ch.*1 ++ [t].
Proof.
  destruct ch as [|[a b] rest]; simpl; intros [= <-].
  - apply list_elem_of_singleton. reflexivity.
  - apply elem_of_cons. left. reflexivity.
Qed.

(** X11. A [Pop] that returns an element from a reachable state: when
    [q.pos] was [internalSliceLastPosition], the head becomes what the old
    head node's [n] was, the old head node's [n] is nil afterwards, the new
    head is not the old head node, and [q.pos] is 0; otherwise the head
    stays and [q.pos] grows by one.  Nothing is said here of [q.tail]. *)
Theorem Pop_cursor_step (s s' : state) (x : value) :
  reachable s -> Pop s = Ok ((x, true), s') ->
  exists (a : addr) (nd : Node),
    head (q s) = Some a /\ heap s !! a = Some nd /\
    (pos (q s) = internalSliceLastPosition ->
       head (q s') = n nd /\
       (exists nd', heap s' !! a = Some nd' /\ n nd' = None) /\
       head (q s') <> Some a /\
       pos (q s') = 0) /\
    (pos (q s) <> internalSliceLastPosition ->
       head (q s') = head (q s) /\ pos (q s') = pos (q s) + 1).
Proof.
  intros Hr HP. pose proof (reachable_shape s Hr) as Hs.
  apply reachable_wf in Hr as (k & Hk & Hwf).
  pose proof (wf_pos _ _ Hwf) as Hp. unfold pos_ok in Hp.
  pose proof HP as HP0.
  apply Pop_inv in HP
    as [(_ & [=] & _)|(Hnz & a & nd & y & Hh & Ha & _ & _ & _ & ->)].
  exists a, nd. split; [assumption|]. split; [assumption|].
  destruct (after_Pop_cursor s a nd Hp) as [Hlast Hother].
  split; [|assumption].
  intros He. destruct (Hlast He) as [H1 H2].
  split; [assumption|]. split; [|split; [|assumption]].
  - rewrite (after_Pop_lookup_eq s a nd Ha).
    eexists. split; [reflexivity|]. simpl. rewrite He. reflexivity.
  - destruct Hs as [(pre & t & vs & Hc)|[Hnil _]]; [|congruence].
    destruct (chained_Pop s pre t vs Hc Hnz) as (z & s1 & HP1 & _ & _ & Hcases).
    rewrite HP1 in HP0. injection HP0 as _ <-.
    destruct Hcases
      as [(Hlt & _)
         |[(_ & _ & a0 & b & rest & -> & Hc1 & _)
          |(_ & _ & [Hnil _] & _)]].
    + lia.
    + pose proof (ch_head _ _ _ _ Hc) as Hh0. simpl in Hh0.
      rewrite Hh in Hh0. injection Hh0 as <-.
      pose proof (ch_nodup _ _ _ _ Hc) as Hnd. csimpl in Hnd.
      apply NoDup_cons in Hnd as [Hnotin _].
      rewrite (ch_head _ _ _ _ Hc1). intros Hfa.
      apply Hnotin. apply first_addr_elem. assumption.
    + rewrite Hnil. discriminate.
Qed.

(** X9. In a reachable state [Front] and [Pop] return unless the queue
    has elements and a nil head, in which case both panic on the nil
    pointer: no reachable state gives an index out of range, and none
    panics while the head is not nil. *)
Lemma reachable_panic_iff (s : state) :
  reachable s ->
  (head (q s) = None /\ len (q s) <> 0 /\
   Front s = Panic NilDeref /\ Pop s = Panic NilDeref) \/
  ((head (q s) <> None \/ len (q s) = 0) /\
   (exists r, Front s = Ok (r, s)) /\ (exists r s', Pop s = Ok (r, s'))).
Proof.
  intros Hr. pose proof (reachable_shape s Hr) as Hs.
  destruct (Z.eq_dec (len (q s)) 0) as [Hz|Hnz].
  { right. split; [auto|]. split.
    - eexists. apply Front_empty. assumption.
    - do 2 eexists. apply Pop_empty. assumption. }
  destruct Hs as [(pre & t & vs & Hc)|[Hh Hp]].
  - right.
    destruct (chained_Pop s pre t vs Hc Hnz) as (y & s1 & HP1 & _).
    apply Pop_inv in HP1 as HP2.
    destruct HP2 as [(Hz & _)|(_ & a & nd & x & Hh & Ha & Hp & Hx & _)];
      [contradiction|].
    split; [left; congruence|]. split.
    + eexists. eapply Front_eq; eauto.
    + eauto.
  - left. split; [assumption|]. split; [assumption|].
    split; [apply Front_nil_head|apply Pop_nil_head]; assumption.
Qed.

(** * Further properties of the methods *)

(** ** [Front] against [Pop] *)

Lemma Front_Pop_cases (s : state) :
  (exists r s', Front s = Ok (r, s) /\ Pop s = Ok (r, s')) \/
  (exists f, Front s = Panic f /\ Pop s = Panic f).
Proof.
  destruct (Z.eq_dec (len (q s)) 0) as [Hz|Hnz].
  { left. exists (None, false), s.
    split; [apply Front_empty|apply Pop_empty]; assumption. }
  destruct (head (q s)) as [a|] eqn:Hh.
  2:{ right. exists NilDeref.
      split; [apply Front_nil_head|apply Pop_nil_head]; assumption. }
  destruct (heap s !! a) as [nd|] eqn:Ha.
  2:{ right. exists Dangling. unfold Front, Pop. unfold_monad.
      destruct (Z.eqb_spec (len (q s)) 0) as [|_]; [contradiction|].
      rewrite Hh, Ha. split; reflexivity. }
  destruct (Z.lt_ge_cases (pos (q s)) 0) as [Hneg|Hp].
  { right. exists IndexOutOfRange. unfold Front, Pop. unfold_monad.
    destruct (Z.eqb_spec (len (q s)) 0) as [|_]; [contradiction|].
    rewrite Hh, Ha. simpl.
    destruct (Z.ltb_spec (pos (q s)) 0) as [_|]; [|lia].
    split; reflexivity. }
  destruct (v nd !! Z.to_nat (pos (q s))) as [x|] eqn:Hx.
  - left. exists (x, true), (after_Pop s a nd).
    split; [eapply Front_eq|eapply Pop_eq]; eauto.
  - right. exists IndexOutOfRange. unfold Front, Pop. unfold_monad.
    destruct (Z.eqb_spec (len (q s)) 0) as [|_]; [contradiction|].
    rewrite Hh, Ha. simpl.
    destruct (Z.ltb_spec (pos (q s)) 0) as [|_]; [lia|].
    rewrite Hx. split; reflexivity.
Qed.

(** X1. In any store, [Front] returns exactly what the next [Pop] would
    return (the same value and the same flag) and leaves the store as it
    was; and [Front] panics exactly when [Pop] does, with the same
    panic. *)
Theorem Front_agrees_with_Pop (s : state) :
  (forall r s', Front s = Ok (r, s') ->
     s' = s /\ exists s'', Pop s = Ok (r, s'')) /\
  (forall r s', Pop s = Ok (r, s') -> Front s = Ok (r, s)) /\
  (forall f, Front s = Panic f <-> Pop s = Panic f).
Proof.
  destruct (Front_Pop_cases s) as [(r & s1 & HF & HP)|(f & HF & HP)].
  - split; [|split].
    + intros r' s' H. rewrite HF in H. injection H as <- <-.
      split; [reflexivity|]. eauto.
    + intros r' s' H. rewrite HP in H. injection H as <- _. assumption.
    + intros f. rewrite HF, HP. split; discriminate.
  - split; [|split].
    + intros r' s' H. rewrite HF in H. discriminate.
    + intros r' s' H. rewrite HP in H. discriminate.
    + intros f'. rewrite HF, HP. tauto.
Qed.

(** ** The zero value and [Init] *)

(** X2. A [Queueimpl3] that was never initialised (all fields zero): [Len]
    returns 0 and [Front] and [Pop] return nil and false, but [Push]
    panics on the nil [q.tail], whatever the value. *)
Theorem zero_value_queue :
  Len zero = Ok (0, zero) /\
  Front zero = Ok ((None, false), zero) /\
  Pop zero = Ok ((None, false), zero) /\
  forall x : value, Push x zero = Panic NilDeref.
Proof. repeat split. Qed.

(** X3. [Init] makes a working empty queue out of any store, also of the
    zero value and of a queue whose head is nil: after [Init], pushing
    [xs] and popping as many times returns [xs] in order, without a
    panic. *)
Theorem Init_restores_FIFO (s : state) (xs : list value) :
  Z.of_nat (length xs) <= max_int ->
  trace (run (OInit :: pushes xs ++ pops (length xs)) s) =
    EInit :: repeat EPush (length xs) ++ map (fun x => EPop x true) xs /\
  crash (run (OInit :: pushes xs ++ pops (length xs)) s) = None.
Proof.
  intros Hlen.
  change (run (OInit :: pushes xs ++ pops (length xs)) s)
    with (let r := run (pushes xs ++ pops (length xs)) (after_Init s) in
          mkOutcome (EInit :: trace r) (final r) (crash r)).
  pose proof (chained_after_Init s) as Hc0.
  destruct (run_pushes_chained xs (after_Init s) [] (length (heap s)) [] Hc0)
    as (s1 & pre & t & vs & Hrun & Hc & Hslots & Hpos & _).
  { simpl. lia. }
  destruct (run_pops_chained xs s1 pre t vs Hc) as (s2 & Hrun2 & _).
  { rewrite Hslots, Hpos. reflexivity. }
  rewrite run_app by (rewrite Hrun; reflexivity).
  rewrite Hrun. simpl. rewrite Hrun2. simpl. auto.
Qed.

(** ** The queue against the reference list *)

Lemma chained_len (s : state) (pre : list (addr * list value)) (t : addr)
    (vs : list value) :
  chained s pre t vs ->
  (Z.to_nat (pos (q s)) <= length (slots_of pre vs))%nat /\
  len (q s) =
    Z.of_nat (length (drop (Z.to_nat (pos (q s))) (slots_of pre vs))).
Proof.
  intros Hc.
  pose proof (ch_len _ _ _ _ Hc) as Hlen.
  pose proof (ch_int _ _ _ _ Hc) as Hint.
  pose proof (ch_pos _ _ _ _ Hc) as Hpos.
  rewrite length_drop. lia.
Qed.

Lemma stands_for_len (k : nat) (s : state) (l : list value) :
  stands_for k s l -> len (q s) = Z.of_nat (length l).
Proof.
  intros [_ [(pre & t & vs & Hc & ->)|[_ Hl]]]; [|assumption].
  apply (chained_len s pre t vs Hc).
Qed.

Lemma stands_for_New : stands_for 0 New [].
Proof.
  split; [apply wf_New|]. left. exists [], 0%nat, [].
  split; [apply chained_New|reflexivity].
Qed.

Lemma step_stands_for (k : nat) (o : op) (s s' : state) (e : event)
    (l : list value) :
  stands_for k s l -> Z.of_nat k < max_int -> step o s = Ok (e, s') ->
  fst (fifo_step o l) = e /\ stands_for (S k) s' (snd (fifo_step o l)).
Proof.
  intros Hst Hk Hstep.
  pose proof (stands_for_len k s l Hst) as Hlen.
  destruct Hst as [Hwf Hsh].
  assert (Hwf' : wf (S k) s') by (eapply step_wf; eauto).
  destruct o as [| | |x|]; simpl in Hstep; unfold bind, ret in Hstep.
  - rewrite Init_eq in Hstep. injection Hstep as <- <-. simpl.
    split; [reflexivity|]. split; [assumption|]. left.
    exists [], (length (heap s)), [].
    split; [apply chained_after_Init|reflexivity].
  - rewrite Len_eq in Hstep. injection Hstep as <- <-. simpl.
    split; [congruence|]. split; assumption.
  - destruct (Front s) as [[r s0]|] eqn:HF; [|discriminate].
    injection Hstep as <- <-.
    destruct (Front_Pop_cases s) as [(r1 & s1 & HF1 & HP1)|(f & HF1 & _)];
      [|congruence].
    rewrite HF1 in HF. injection HF as <- <-.
    assert (Hgoal : fst (fifo_step OFront l) = EFront (fst r1) (snd r1)).
    { destruct (Z.eq_dec (len (q s)) 0) as [Hz|Hnz].
      - rewrite Front_empty in HF1 by assumption. injection HF1 as <-.
        destruct l; [reflexivity|simpl in Hlen; lia].
      - destruct Hsh as [(pre & t & vs & Hc & ->)|[[Hh _] _]].
        + destruct (chained_Pop s pre t vs Hc Hnz) as (y & s2 & HP2 & Hy & _).
          rewrite HP2 in HP1. injection HP1 as <- _.
          rewrite (drop_S _ _ _ Hy). reflexivity.
        + rewrite Front_nil_head in HF1 by assumption. discriminate. }
    split; [assumption|].
    replace (snd (fifo_step OFront l)) with l by (destruct l; reflexivity).
    split; assumption.
  - destruct (Push x s) as [[[] s0]|] eqn:HP; [|discriminate].
    injection Hstep as <- <-. simpl. split; [reflexivity|].
    split; [assumption|].
    apply Push_inv in HP as (t & nd & Ht & Ha & ->).
    destruct Hsh as [(pre & t' & vs & Hc & ->)|[[Hh Hp] Hl]].
    + left.
      assert (Htt : Some t' = Some t)
        by (rewrite <- Ht; symmetry; apply (ch_tail _ _ _ _ Hc)).
      injection Htt as ->.
      assert (Hnd : Some nd = Some (mkNode vs None))
        by (rewrite <- Ha; apply (ch_last _ _ _ _ Hc)).
      injection Hnd as ->.
      pose proof (wf_len _ _ Hwf) as Hl. unfold len_ok in Hl.
      destruct (chained_after_Push x s pre t vs Hc ltac:(lia))
        as (pre' & t' & vs' & Hc' & Hslots & Hpos & _).
      exists pre', t', vs'. split; [assumption|].
      rewrite Hslots, Hpos. symmetry. apply drop_app_le.
      apply (chained_len s pre t vs Hc).
    + right.
      destruct (wf_after_Push k x s t nd Hwf Hk Ht Ha) as [_ Hl'].
      split.
      * unfold headless, after_Push.
        destruct (Z.of_nat (length (v nd)) >=? internalSliceSize); simpl;
          auto.
      * rewrite Hl', length_app. simpl. lia.
  - destruct (Pop s) as [[r s0]|] eqn:HP; [|discriminate].
    injection Hstep as <- <-.
    destruct (Z.eq_dec (len (q s)) 0) as [Hz|Hnz].
    { rewrite Pop_empty in HP by assumption. injection HP as <- <-.
      destruct l; [|simpl in Hlen; lia]. simpl.
      split; [reflexivity|]. split; assumption. }
    destruct Hsh as [(pre & t & vs & Hc & ->)|[[Hh _] _]].
    2:{ rewrite Pop_nil_head in HP by assumption. discriminate. }
    destruct (chained_Pop s pre t vs Hc Hnz)
      as (y & s1 & HP1 & Hy & Hlen1 & Hcases).
    rewrite HP1 in HP. injection HP as <- <-.
    rewrite (drop_S _ _ _ Hy). simpl. split; [reflexivity|].
    split; [assumption|].
    pose proof (ch_pos _ _ _ _ Hc) as Hpos.
    destruct Hcases
      as [(Hp & Hp1 & pre' & vs' & Hc1 & _ & _ & Hdrop)
         |[(Hp & Hp1 & a & b & rest & -> & Hc1 & Hdrop)
          |(Hp & -> & Hhl & _ & Hvs)]].
    + left. exists pre', t, vs'. split; [assumption|].
      rewrite Hp1, <- Hdrop. f_equal. lia.
    + left. exists rest, t, vs. split; [assumption|].
      rewrite Hp1, <- Hdrop. reflexivity.
    + right. split; [assumption|].
      rewrite Hlen1, length_drop.
      pose proof (ch_len _ _ _ _ Hc) as Hl. unfold slots_of in *.
      simpl in *.
      unfold internalSliceLastPosition, internalSliceSize in *. lia.
Qed.

Lemma run_stands_for (ops : list op) :
  forall (k : nat) (s : state) (l : list value),
  stands_for k s l -> Z.of_nat (k + length ops) <= max_int ->
  exists rest,
    fifo_run ops l = trace (run ops s) ++ rest /\
    (crash (run ops s) = None -> rest = []).
Proof.
  induction ops as [|o ops' IH]; intros k s l Hst Hk; simpl in *.
  - exists []. auto.
  - destruct (step o s) as [[e s']|f] eqn:Hstep; simpl.
    + destruct (step_stands_for k o s s' e l Hst ltac:(lia) Hstep)
        as [He Hst'].
      destruct (IH (S k) s' _ Hst' ltac:(lia)) as (rest & Hrun & Hnone).
      exists rest. rewrite Hrun, He. auto.
    + eexists. split; [reflexivity|discriminate].
Qed.

(** X4. Whatever calls are made on a fresh queue, in whatever order, each
    call that returns gives what a FIFO list gives: the events of the run
    are those of the reference list, up to the call that panics if one
    does. *)
Theorem run_refines_fifo (ops : list op) :
  Z.of_nat (length ops) <= max_int ->
  exists rest : list event,
    fifo_run ops [] = trace (run ops New) ++ rest /\
    (crash (run ops New) = None -> rest = []).
Proof.
  intros Hk. apply (run_stands_for ops 0 New []); [|simpl; lia].
  apply stands_for_New.
Qed.

(** ** The nil head *)

Lemma first_addr_Some (ch : list (addr * list value)) (t : addr) :
  exists c, first_addr ch (Some t) = Some c.
Proof. destruct ch as [|[a b] rest]; simpl; eauto. Qed.

(** X5. A [Pop] that returns an element leaves [q.head] nil exactly when
    it took the last slot of a node that is both head and tail; the queue
    is then empty. *)
Theorem Pop_leaves_nil_head_iff (s s' : state) (x : value) :
  reachable s -> Pop s = Ok ((x, true), s') ->
  (head (q s') = None <->
   pos (q s) = internalSliceLastPosition /\ head (q s) = tail (q s)) /\
  (head (q s') = None -> len (q s') = 0).
Proof.
  intros Hr HP. pose proof (reachable_shape s Hr) as Hs.
  pose proof HP as HP0.
  apply Pop_inv in HP0
    as [(_ & [=] & _)|(Hnz & a & nd & y & Hh & _)].
  destruct Hs as [(pre & t & vs & Hc)|[Hnil _]]; [|congruence].
  destruct (chained_Pop s pre t vs Hc Hnz) as (z & s1 & HP1 & _ & Hl1 & Hcases).
  rewrite HP1 in HP. injection HP as _ <-.
  pose proof (ch_head _ _ _ _ Hc) as Hhd.
  pose proof (ch_tail _ _ _ _ Hc) as Htl.
  destruct Hcases
    as [(Hlt & _ & pre' & vs' & Hc1 & _)
       |[(_ & _ & a0 & b & rest & -> & Hc1 & _)
        |(Hp & -> & [Hnil _] & _ & Hvs)]].
  - destruct (first_addr_Some pre' t) as [c Hc'].
    rewrite (ch_head _ _ _ _ Hc1), Hc'.
    split; [|discriminate]. split; [discriminate|]. intros [He _]. lia.
  - destruct (first_addr_Some rest t) as [c Hc'].
    rewrite (ch_head _ _ _ _ Hc1), Hc'.
    split; [|discriminate]. split; [discriminate|]. intros [_ He].
    rewrite Hhd, Htl in He. simpl in He. injection He as ->.
    pose proof (ch_nodup _ _ _ _ Hc) as Hnd. csimpl in Hnd.
    apply NoDup_cons in Hnd as [Hnotin _]. exfalso. apply Hnotin.
    apply elem_of_app. right. apply list_elem_of_singleton. reflexivity.
  - split.
    + split; [|intros _; assumption]. intros _.
      split; [assumption|]. rewrite Hhd, Htl. reflexivity.
    + intros _. rewrite Hl1.
      pose proof (ch_len _ _ _ _ Hc) as Hl. unfold slots_of in Hl.
      simpl in Hl.
      unfold internalSliceLastPosition, internalSliceSize in *. lia.
Qed.

Lemma step_nil_head (o : op) (s s' : state) (e : event) :
  head (q s) = None -> is_Init o = false -> step o s = Ok (e, s') ->
  head (q s') = None /\ returns_element e = false.
Proof.
  intros Hh Hno. destruct o as [| | |x|]; simpl; unfold bind, ret;
    try discriminate.
  - rewrite Len_eq. intros [= <- <-]. auto.
  - destruct (Front s) as [[r s0]|] eqn:HF; [|discriminate].
    intros [= <- <-].
    apply Front_inv in HF
      as [-> [[_ ->]|(_ & a & nd & y & Hh' & _)]]; [auto|congruence].
  - destruct (Push x s) as [[[] s0]|] eqn:HP; [|discriminate].
    intros [= <- <-]. apply Push_inv in HP as (t & nd & _ & _ & ->).
    split; [|reflexivity]. unfold after_Push.
    destruct (Z.of_nat (length (v nd)) >=? internalSliceSize); assumption.
  - destruct (Pop s) as [[r s0]|] eqn:HP; [|discriminate].
    intros [= <- <-].
    apply Pop_inv in HP
      as [(_ & -> & ->)|(_ & a & nd & y & Hh' & _)]; [auto|congruence].
Qed.

(** X6. Once [q.head] is nil it stays nil until [Init] is called: whatever
    [Len], [Front], [Push] and [Pop] calls follow, no [Front] and no [Pop]
    hands out an element any more, so every value pushed in that state is
    out of reach. *)
Theorem nil_head_is_permanent (s : state) (ops : list op) :
  head (q s) = None ->
  forallb (fun o => negb (is_Init o)) ops = true ->
  head (q (final (run ops s))) = None /\
  forallb (fun e => negb (returns_element e)) (trace (run ops s)) = true.
Proof.
  revert s. induction ops as [|o rest IH]; intros s Hh Hno; simpl in *.
  - auto.
  - apply andb_prop in Hno as [Ho Hrest]. apply negb_true_iff in Ho.
    destruct (step o s) as [[e s']|f] eqn:Hstep; simpl; [|auto].
    destruct (step_nil_head o s s' e Hh Ho Hstep) as [Hh' He].
    destruct (IH s' Hh' Hrest) as [H1 H2].
    rewrite He, H2. auto.
Qed.

(** X7. In a reachable state whose [q.head] is not nil the nodes form a
    list without a cycle that leads from the head to the tail; every node
    before the tail is full, the tail's [n] is nil, and [q.len] is the
    number of slots from [q.pos] of the head node to the end of the tail
    node. *)
Theorem nodes_form_a_chain (s : state) :
  reachable s -> head (q s) <> None ->
  exists (pre : list (addr * list value)) (t : addr) (vs : list value),
    chained s pre t vs.
Proof.
  intros Hr Hh. destruct (reachable_shape s Hr) as [Hc|[Hnil _]];
    [assumption|contradiction].
Qed.

(** ** Allocation *)

Lemma run_pushes_heap (xs : list value) :
  forall (s : state) (pre : list (addr * list value)) (t : addr)
         (vs : list value),
  chained s pre t vs ->
  len (q s) + Z.of_nat (length xs) <= max_int ->
  exists pre' t' vs',
    chained (final (run (pushes xs) s)) pre' t' vs' /\
    (length (heap (final (run (pushes xs) s))) + length pre =
     length (heap s) + length pre')%nat /\
    Z.of_nat (length (slots_of pre' vs')) =
      Z.of_nat (length (slots_of pre vs)) + Z.of_nat (length xs) /\
    (xs <> [] -> (1 <= length vs')%nat).
Proof.
  unfold pushes.
  induction xs as [|x rest IH]; intros s pre t vs Hc Hlen; simpl in *.
  - exists pre, t, vs. split; [assumption|]. split; [lia|].
    split; [lia|congruence].
  - unfold bind, ret.
    rewrite (Push_eq x s t (mkNode vs None))
      by (apply (ch_tail _ _ _ _ Hc) || apply (ch_last _ _ _ _ Hc)).
    destruct (chained_after_Push x s pre t vs Hc ltac:(lia))
      as (pre1 & t1 & vs1 & Hc1 & Hslots1 & Hpos1 & Hvs1).
    pose proof (after_Push_length x s t (mkNode vs None)) as Hheap1.
    set (s1 := after_Push x s t (mkNode vs None)) in *.
    assert (Hlen1 : len (q s1) = len (q s) + 1).
    { rewrite (ch_len _ _ _ _ Hc1), (ch_len _ _ _ _ Hc), Hslots1, Hpos1.
      rewrite length_app. simpl. lia. }
    pose proof (slots_of_length pre vs (ch_full _ _ _ _ Hc)) as Hsl.
    pose proof (slots_of_length pre1 vs1 (ch_full _ _ _ _ Hc1)) as Hsl1.
    pose proof (ch_size _ _ _ _ Hc) as Hsz.
    pose proof (ch_size _ _ _ _ Hc1) as Hsz1.
    rewrite Hslots1, length_app in Hsl1. simpl in Hsl1, Hheap1.
    assert (Hpre1 : (length (heap s1) + length pre =
                     length (heap s) + length pre1)%nat).
    { rewrite Hheap1. unfold internalSliceSize in *.
      destruct (Z.geb_spec (Z.of_nat (length vs)) 128); lia. }
    destruct (IH s1 pre1 t1 vs1 Hc1 ltac:(lia))
      as (pre' & t' & vs' & Hc' & Hheap' & Hslots' & Hvs').
    simpl. exists pre', t', vs'. split; [assumption|].
    split; [lia|]. split.
    + rewrite Hslots', Hslots1, length_app. simpl. lia.
    + intros _. destruct rest as [|y rest'].
      * simpl in Hc'.
        assert (Htl : Some t' = Some t1).
        { rewrite <- (ch_tail _ _ _ _ Hc'). apply (ch_tail _ _ _ _ Hc1). }
        injection Htl as ->.
        pose proof (ch_last _ _ _ _ Hc') as Hlast.
        rewrite (ch_last _ _ _ _ Hc1) in Hlast.
        injection Hlast as <-. assumption.
      * apply Hvs'. discriminate.
Qed.

(** X8. Pushing [m] values into a fresh queue allocates one node per
    [internalSliceSize] values: afterwards the heap holds the first node
    and as many more as needed, the larger of 1 and [m / 128] rounded
    up. *)
Theorem pushes_allocate (xs : list value) :
  Z.of_nat (length xs) <= max_int ->
  Z.of_nat (length (heap (final (run (pushes xs) New)))) =
    Z.max 1 ((Z.of_nat (length xs) + internalSliceLastPosition)
             / internalSliceSize).
Proof.
  intros Hlen.
  destruct (run_pushes_heap xs New [] 0%nat [] chained_New)
    as (pre & t & vs & Hc & Hheap & Hslots & Hvs).
  { change (len (q New)) with 0. lia. }
  pose proof (slots_of_length pre vs (ch_full _ _ _ _ Hc)) as Hsl.
  pose proof (ch_size _ _ _ _ Hc) as Hsz.
  change (length (heap New)) with 1%nat in Hheap.
  unfold slots_of in Hslots at 2. simpl in Hslots, Hheap.
  unfold internalSliceSize, internalSliceLastPosition in *.
  destruct xs as [|x rest].
  - reflexivity.
  - specialize (Hvs ltac:(discriminate)).
    assert (Hdiv : (Z.of_nat (length (x :: rest)) + 127) / 128 =
                   Z.of_nat (length pre) + 1).
    { symmetry.
      apply (Z.div_unique _ 128 _ (Z.of_nat (length vs) - 1)); lia. }
    rewrite Hdiv. lia.
Qed.

(** ** Runs that cannot panic *)

Lemma popped_nonneg (tr : list event) : 0 <= popped tr.
Proof.
  induction tr as [|e r IH]; simpl; [lia|].
  destruct e as [| | | |y []]; lia.
Qed.

Lemma run_below_last_slot (ops : list op) :
  forall (k : nat) (s : state) (pre : list (addr * list value)) (t : addr)
         (vs : list value),
  wf k s -> chained s pre t vs ->
  Z.of_nat (k + length ops) <= max_int ->
  pos (q s) + popped (trace (run ops s)) < internalSliceSize ->
  crash (run ops s) = None.
Proof.
  induction ops as [|o rest IH]; intros k s pre t vs Hwf Hc Hk Hpop;
    [reflexivity|].
  pose proof (ch_pos _ _ _ _ Hc) as Hpos.
  simpl in Hk.
  destruct (step o s) as [[e s']|f] eqn:Hstep.
  - assert (Hwf' : wf (S k) s') by (eapply step_wf; eauto; lia).
    assert (Hrun : run (o :: rest) s =
                   mkOutcome (e :: trace (run rest s')) (final (run rest s'))
                     (crash (run rest s')))
      by (simpl; rewrite Hstep; reflexivity).
    rewrite Hrun in *. cbn [crash trace] in *.
    pose proof (popped_nonneg (trace (run rest s'))) as Hnn.
    assert (Hnext : exists pre' t' vs',
               chained s' pre' t' vs' /\
               pos (q s') + popped (trace (run rest s')) < internalSliceSize).
    { destruct o as [| | |x|]; simpl in Hstep; unfold bind, ret in Hstep.
      - rewrite Init_eq in Hstep. injection Hstep as <- <-.
        exists [], (length (heap s)), [].
        split; [apply chained_after_Init|]. simpl in *. lia.
      - rewrite Len_eq in Hstep. injection Hstep as <- <-.
        exists pre, t, vs. split; [assumption|]. simpl in Hpop. lia.
      - destruct (Front s) as [[r s0]|] eqn:HF; [|discriminate].
        injection Hstep as <- <-. apply Front_inv in HF as [-> _].
        exists pre, t, vs. split; [assumption|]. simpl in Hpop. lia.
      - destruct (Push x s) as [[[] s0]|] eqn:HP; [|discriminate].
        injection Hstep as <- <-.
        rewrite (Push_eq x s t (mkNode vs None)) in HP
          by (apply (ch_tail _ _ _ _ Hc) || apply (ch_last _ _ _ _ Hc)).
        injection HP as <-.
        pose proof (wf_len _ _ Hwf) as Hl. unfold len_ok in Hl.
        destruct (chained_after_Push x s pre t vs Hc ltac:(lia))
          as (pre' & t' & vs' & Hc' & _ & Hpos' & _).
        exists pre', t', vs'. split; [assumption|].
        rewrite Hpos'. simpl in Hpop. lia.
      - destruct (Pop s) as [[r s0]|] eqn:HP; [|discriminate].
        injection Hstep as <- <-.
        destruct (Z.eq_dec (len (q s)) 0) as [Hz|Hnz].
        { rewrite Pop_empty in HP by assumption. injection HP as <- <-.
          exists pre, t, vs. split; [assumption|]. simpl in Hpop. lia. }
        destruct (chained_Pop s pre t vs Hc Hnz)
          as (y & s1 & HP1 & _ & _ & Hcases).
        rewrite HP1 in HP. injection HP as <- <-. simpl in Hpop.
        unfold internalSliceLastPosition, internalSliceSize in *.
        destruct Hcases
          as [(_ & Hp1 & pre' & vs' & Hc1 & _)
             |[(Hp & _)|(Hp & _)]]; [|lia|lia].
        exists pre', t, vs'. split; [assumption|]. lia. }
    destruct Hnext as (pre' & t' & vs' & Hc' & Hpop').
    apply (IH (S k) s' pre' t' vs'); (assumption || lia).
  - exfalso. destruct o as [| | |x|]; simpl in Hstep; unfold bind, ret in Hstep.
    + rewrite Init_eq in Hstep. discriminate.
    + rewrite Len_eq in Hstep. discriminate.
    + destruct (Front_Pop_cases s) as [(r & s1 & HF & _)|(f' & _ & HP)].
      * rewrite HF in Hstep. discriminate.
      * destruct (Z.eq_dec (len (q s)) 0) as [Hz|Hnz].
        -- rewrite Pop_empty in HP by assumption. discriminate.
        -- destruct (chained_Pop s pre t vs Hc Hnz) as (y & s1 & HP1 & _).
           congruence.
    + rewrite (Push_eq x s t (mkNode vs None)) in Hstep
        by (apply (ch_tail _ _ _ _ Hc) || apply (ch_last _ _ _ _ Hc)).
      discriminate.
    + destruct (Z.eq_dec (len (q s)) 0) as [Hz|Hnz].
      * rewrite Pop_empty in Hstep by assumption. discriminate.
      * destruct (chained_Pop s pre t vs Hc Hnz) as (y & s1 & HP1 & _).
        rewrite HP1 in Hstep. discriminate.
Qed.

(** X10. A run on a fresh queue in which fewer than [internalSliceSize]
    calls of [Pop] hand out an element does not panic, whatever the calls
    and their order. *)
Theorem first_node_is_safe (ops : list op) :
  Z.of_nat (length ops) <= max_int ->
  popped (trace (run ops New)) < internalSliceSize ->
  crash (run ops New) = None.
Proof.
  intros Hk Hpop.
  apply (run_below_last_slot ops 0 New [] 0%nat []).
  - apply wf_New.
  - apply chained_New.
  - simpl. lia.
  - change (pos (q New)) with 0. lia.
Qed.

(** ** References to a retired node *)

Lemma lseg_next (h : list Node) (ch : list (addr * list value))
    (t b c : addr) (nd : Node) :
  lseg h ch (Some t) -> b ∈ ch.*1 -> h !! b = Some nd -> n nd = Some c ->
  c ∈ ch.*1 ++ [t].
Proof.
  induction ch as [|[a0 vs0] rest IH]; csimpl.
  - intros _ []%elem_of_nil.
  - intros [Ha Hrest] [->|Hin]%elem_of_cons Hb Hn.
    + rewrite Ha in Hb. injection Hb as <-. simpl in Hn.
      apply elem_of_cons. right. apply first_addr_elem. assumption.
    + apply elem_of_cons. right. eapply IH; eauto.
Qed.

(** X12. When a [Pop] in a reachable state retires a head node that is not
    also the tail, nothing of the queue refers to the retired node any
    more: not [q.head], not [q.tail], and none of the nodes of the list
    that leads from the new head to the tail, neither by being it nor
    through its [n]. *)
Theorem retired_node_unreferenced (s s' : state) (x : value) (a : addr) :
  reachable s -> Pop s = Ok ((x, true), s') ->
  head (q s) = Some a -> pos (q s) = internalSliceLastPosition ->
  head (q s) <> tail (q s) ->
  head (q s') <> Some a /\ tail (q s') <> Some a /\
  exists (pre : list (addr * list value)) (t : addr) (vs : list value),
    chained s' pre t vs /\
    forall (b : addr) (nd : Node),
      b ∈ pre.*1 ++ [t] -> heap s' !! b = Some nd ->
      b <> a /\ n nd <> Some a.
Proof.
  intros Hr HP Hh Hp Hne. pose proof (reachable_shape s Hr) as Hs.
  pose proof HP as HP0.
  apply Pop_inv in HP0 as [(_ & [=] & _)|(Hnz & _)].
  destruct Hs as [(pre & t & vs & Hc)|[Hnil _]]; [|congruence].
  destruct (chained_Pop s pre t vs Hc Hnz) as (z & s1 & HP1 & _ & _ & Hcases).
  rewrite HP1 in HP. injection HP as _ <-.
  pose proof (ch_head _ _ _ _ Hc) as Hhd.
  pose proof (ch_tail _ _ _ _ Hc) as Htl.
  destruct Hcases
    as [(Hlt & _)
       |[(_ & _ & a0 & b0 & rest & -> & Hc1 & _)
        |(_ & -> & _)]].
  - lia.
  - simpl in Hhd. rewrite Hh in Hhd. injection Hhd as <-.
    pose proof (ch_nodup _ _ _ _ Hc) as Hnd. csimpl in Hnd.
    apply NoDup_cons in Hnd as [Hnotin _].
    split; [|split].
    + rewrite (ch_head _ _ _ _ Hc1). intros Hfa.
      apply Hnotin. apply first_addr_elem. assumption.
    + rewrite (ch_tail _ _ _ _ Hc1). intros [= ->].
      apply Hnotin. apply elem_of_app. right.
      apply list_elem_of_singleton. reflexivity.
    + exists rest, t, vs. split; [assumption|].
      intros b nd Hb Hl. split; [intros ->; contradiction|].
      intros Hn. apply Hnotin.
      apply elem_of_app in Hb as [Hb|Hb].
      * eapply lseg_next; [apply (ch_lseg _ _ _ _ Hc1)| | |]; eauto.
      * apply list_elem_of_singleton in Hb. subst b.
        rewrite (ch_last _ _ _ _ Hc1) in Hl. injection Hl as <-.
        discriminate.
  - simpl in Hhd. congruence.
Qed.

End Queueimpl3.

(** * Concrete runs

    The panic of [Front] and [Pop] at the node boundary, and each theorem
    above that has hypotheses applied to a run that satisfies them. *)

(** C2. One full node pushed and popped, then one more value pushed: the
    state is reachable and [Len()] is 1, yet [Front()] and [Pop()] panic
    on the nil [q.head] instead of returning the value. *)
Theorem Front_Pop_panic_after_full_node :
  let s := final (run (refill (map Some (seq 0 128)) (Some 128%nat)) New) in
  reachable s /\
  Len s = Ok (1, s) /\
  head (q s) = None /\
  Front s = Panic NilDeref /\
  Pop s = Panic NilDeref.
Proof.
  intros s. split.
  - exists (refill (map Some (seq 0 128)) (Some 128%nat)).
    split; [vm_compute; reflexivity|reflexivity].
  - vm_compute. auto.
Qed.

(** C5. The last slot of the only node is popped: 128 values pushed, 127
    popped, then [Pop].  The call returns the last value, [q.head] becomes
    the old head's [n], which is nil, and [q.pos] becomes 0; the retired
    node's slots are all nil and its [n] is nil, but [q.tail] still points
    to it: the queue keeps a reference into the retired node. *)
Theorem Pop_keeps_tail_on_retired_node :
  let s := final (run (pushes (map Some (seq 0 128)) ++ pops 127) New) in
  reachable s /\
  head (q s) = Some 0%nat /\ tail (q s) = Some 0%nat /\
  pos (q s) = internalSliceLastPosition /\
  exists s' : state,
    Pop s = Ok ((Some 127%nat, true), s') /\
    head (q s') = None /\ pos (q s') = 0 /\ len (q s') = 0 /\
    heap s' !! 0%nat =
      Some (mkNode (replicate (Z.to_nat internalSliceSize) None) None) /\
    tail (q s') = Some 0%nat.
Proof.
  intros s. split.
  - exists (pushes (map Some (seq 0 128)) ++ pops 127).
    split; [vm_compute; reflexivity|reflexivity].
  - split; [reflexivity|]. split; [reflexivity|]. split; [reflexivity|].
    exists (final (run (pushes (map Some (seq 0 128)) ++ pops 128) New)).
    vm_compute. repeat split; reflexivity.
Qed.

Lemma FIFO_order_witness :
  Z.of_nat (length [Some 7; None; Some 9]) <= max_int /\
  trace (run (pushes [Some 7; None; Some 9] ++ pops 3) New) =
    [EPush; EPush; EPush; EPop (Some 7) true; EPop None true;
     EPop (Some 9) true] /\
  crash (run (pushes [Some 7; None; Some 9] ++ pops 3) New) = None.
Proof.
  split; [vm_compute; discriminate|].
  apply (FIFO_order [Some 7; None; Some 9]). vm_compute. discriminate.
Defined.

Lemma Len_is_pushes_minus_pops_witness :
  forallb (fun o => negb (is_Init o))
    [OPush (Some 1); OPop; OPop; OPush (Some 2); OFront; OPush None; OLen]
    = true /\
  Len (final (run [OPush (Some 1); OPop; OPop; OPush (Some 2); OFront;
                   OPush None; OLen] New)) =
    Ok (pushed (trace (run [OPush (Some 1); OPop; OPop; OPush (Some 2);
                            OFront; OPush None; OLen] New)) -
        popped (trace (run [OPush (Some 1); OPop; OPop; OPush (Some 2);
                            OFront; OPush None; OLen] New)),
        final (run [OPush (Some 1); OPop; OPop; OPush (Some 2); OFront;
                    OPush None; OLen] New)).
Proof.
  split; [reflexivity|].
  apply (Len_is_pushes_minus_pops
           [OPush (Some 1); OPop; OPop; OPush (Some 2); OFront; OPush None;
            OLen]).
  - reflexivity.
  - vm_compute. discriminate.
Defined.

Lemma empty_Front_Pop_witness :
  Len (@New nat) = Ok (0, New) /\
  Front (@New nat) = Ok ((None, false), New) /\
  Pop (@New nat) = Ok ((None, false), New).
Proof.
  split; [reflexivity|].
  destruct (empty_Front_Pop (@New nat)) as (HF & HP & _); [reflexivity|].
  split; assumption.
Defined.

Lemma Pop_cursor_step_witness :
  reachable (final (run [OPush (Some 5%nat)] New)) /\
  Pop (final (run [OPush (Some 5%nat)] New)) =
    Ok ((Some 5%nat, true),
        mkState [mkNode [None] None] (mkQueue (Some 0%nat) (Some 0%nat) 1 0)) /\
  exists (a : addr) (nd : Node),
    head (q (final (run [OPush (Some 5%nat)] New))) = Some a /\
    heap (final (run [OPush (Some 5%nat)] New)) !! a = Some nd.
Proof.
  assert (Hr : reachable (final (run [OPush (Some 5%nat)] New))).
  { exists [OPush (Some 5%nat)]. split; [vm_compute; reflexivity|reflexivity]. }
  assert (HP : Pop (final (run [OPush (Some 5%nat)] New)) =
               Ok ((Some 5%nat, true),
                   mkState [mkNode [None] None]
                     (mkQueue (Some 0%nat) (Some 0%nat) 1 0)))
    by (vm_compute; reflexivity).
  split; [exact Hr|]. split; [exact HP|].
  destruct (Pop_cursor_step _ _ _ Hr HP) as (a & nd & Hh & Ha & _).
  exists a, nd. split; assumption.
Defined.

Lemma Push_step_witness :
  reachable (@New nat) /\
  exists s' : state,
    Push (Some 3%nat) New = Ok (tt, s') /\ len (q s') = len (q (@New nat)) + 1.
Proof.
  assert (Hr : reachable (@New nat)).
  { exists []. split; [vm_compute; reflexivity|reflexivity]. }
  split; [exact Hr|].
  destruct (Push_step New (Some 3%nat) Hr)
    as (t & nd & s' & _ & _ & HP & Hl & _).
  exists s'. split; assumption.
Defined.

Lemma pos_in_range_witness :
  reachable (final (run [OPush (Some 5%nat); OPop] New)) /\
  0 <= pos (q (final (run [OPush (Some 5%nat); OPop] New)))
    < internalSliceSize.
Proof.
  assert (Hr : reachable (final (run [OPush (Some 5%nat); OPop] New))).
  { exists [OPush (Some 5%nat); OPop].
    split; [vm_compute; reflexivity|reflexivity]. }
  split; [exact Hr|]. apply (pos_in_range _ Hr).
Defined.

Lemma Pop_clears_slot_witness :
  reachable (final (run [OPush (Some 5%nat)] New)) /\
  Pop (final (run [OPush (Some 5%nat)] New)) =
    Ok ((Some 5%nat, true),
        mkState [mkNode [None] None] (mkQueue (Some 0%nat) (Some 0%nat) 1 0)) /\
  head (q (final (run [OPush (Some 5%nat)] New))) = Some 0%nat /\
  exists nd' : Node,
    [mkNode [@None nat] None] !! 0%nat = Some nd' /\
    v nd' !! 0%nat = Some None.
Proof.
  assert (Hr : reachable (final (run [OPush (Some 5%nat)] New))).
  { exists [OPush (Some 5%nat)]. split; [vm_compute; reflexivity|reflexivity]. }
  assert (HP : Pop (final (run [OPush (Some 5%nat)] New)) =
               Ok ((Some 5%nat, true),
                   mkState [mkNode [None] None]
                     (mkQueue (Some 0%nat) (Some 0%nat) 1 0)))
    by (vm_compute; reflexivity).
  assert (Hh : head (q (final (run [OPush (Some 5%nat)] New))) = Some 0%nat)
    by reflexivity.
  split; [exact Hr|]. split; [exact HP|]. split; [exact Hh|].
  destruct (Pop_clears_slot _ _ _ _ Hr HP Hh)
    as (nd & nd' & _ & _ & Ha' & Hx' & _).
  exists nd'. split; assumption.
Defined.

Lemma empty_with_nil_head_witness :
  length (repeat (Some 1%nat) 128) = (Z.to_nat internalSliceSize * 1)%nat /\
  2 * Z.of_nat (length (repeat (Some 1%nat) 128)) < max_int /\
  head (q (final (run (pushes (repeat (Some 1%nat) 128) ++ pops 128) New)))
    = None /\
  Pop (final (run (pushes (repeat (Some 1%nat) 128) ++ pops 128) New)) =
    Ok ((None, false),
        final (run (pushes (repeat (Some 1%nat) 128) ++ pops 128) New)).
Proof.
  split; [reflexivity|]. split; [vm_compute; reflexivity|].
  destruct (empty_with_nil_head 0 (repeat (Some 1%nat) 128)
              (final (run (pushes (repeat (Some 1%nat) 128) ++ pops 128) New)))
    as (_ & _ & _ & Hh & _ & HP).
  - reflexivity.
  - vm_compute. reflexivity.
  - reflexivity.
  - split; assumption.
Defined.

Lemma block_size_bound_witness :
  reachable (@New nat) /\
  forall (a : addr) (nd : Node),
    heap (@New nat) !! a = Some nd ->
    Z.of_nat (length (v nd)) <= internalSliceSize.
Proof.
  assert (Hr : reachable (@New nat)).
  { exists []. split; [vm_compute; reflexivity|reflexivity]. }
  split; [exact Hr|]. apply (block_size_bound New Hr).
Defined.

Lemma Init_restores_FIFO_witness :
  Z.of_nat (length [Some 7%nat; Some 8%nat]) <= max_int /\
  trace (run (OInit :: pushes [Some 7%nat; Some 8%nat] ++ pops 2)
           (final (run (refill (repeat (Some 1%nat) 128) (Some 2%nat)) New)))
    = [EInit; EPush; EPush; EPop (Some 7%nat) true; EPop (Some 8%nat) true] /\
  crash (run (OInit :: pushes [Some 7%nat; Some 8%nat] ++ pops 2)
           (final (run (refill (repeat (Some 1%nat) 128) (Some 2%nat)) New)))
    = None.
Proof.
  split; [vm_compute; discriminate|].
  apply (Init_restores_FIFO
           (final (run (refill (repeat (Some 1%nat) 128) (Some 2%nat)) New))
           [Some 7%nat; Some 8%nat]).
  vm_compute. discriminate.
Defined.

Lemma run_refines_fifo_witness :
  Z.of_nat (length [OPush (Some 1%nat); OFront; OPush (Some 2%nat); OPop;
                    OLen; OPop; OPop; OInit; OPush None; OPop])
    <= max_int /\
  exists rest : list event,
    fifo_run [OPush (Some 1%nat); OFront; OPush (Some 2%nat); OPop; OLen;
              OPop; OPop; OInit; OPush None; OPop] [] =
    trace (run [OPush (Some 1%nat); OFront; OPush (Some 2%nat); OPop; OLen;
                OPop; OPop; OInit; OPush None; OPop] New) ++ rest.
Proof.
  split; [vm_compute; discriminate|].
  destruct (run_refines_fifo
              [OPush (Some 1%nat); OFront; OPush (Some 2%nat); OPop; OLen;
               OPop; OPop; OInit; OPush None; OPop]) as (rest & Hrun & _).
  - vm_compute. discriminate.
  - exists rest. exact Hrun.
Defined.

Lemma Pop_leaves_nil_head_iff_witness :
  reachable (final (run [OPush (Some 5%nat)] New)) /\
  Pop (final (run [OPush (Some 5%nat)] New)) =
    Ok ((Some 5%nat, true),
        mkState [mkNode [None] None] (mkQueue (Some 0%nat) (Some 0%nat) 1 0)) /\
  (head (q (mkState [mkNode [@None nat] None]
              (mkQueue (Some 0%nat) (Some 0%nat) 1 0))) = None ->
   len (q (mkState [mkNode [@None nat] None]
             (mkQueue (Some 0%nat) (Some 0%nat) 1 0))) = 0).
Proof.
  assert (Hr : reachable (final (run [OPush (Some 5%nat)] New))).
  { exists [OPush (Some 5%nat)]. split; [vm_compute; reflexivity|reflexivity]. }
  assert (HP : Pop (final (run [OPush (Some 5%nat)] New)) =
               Ok ((Some 5%nat, true),
                   mkState [mkNode [None] None]
                     (mkQueue (Some 0%nat) (Some 0%nat) 1 0)))
    by (vm_compute; reflexivity).
  split; [exact Hr|]. split; [exact HP|].
  apply (Pop_leaves_nil_head_iff _ _ _ Hr HP).
Defined.

Lemma nil_head_is_permanent_witness :
  head (q (final (run (pushes (repeat (Some 1%nat) 128) ++ pops 128) New)))
    = None /\
  forallb (fun o => negb (is_Init o)) [OPush (Some 2%nat); OLen; OPop] = true /\
  head (q (final (run [OPush (Some 2%nat); OLen; OPop]
                    (final (run (pushes (repeat (Some 1%nat) 128) ++ pops 128)
                              New))))) = None.
Proof.
  split; [vm_compute; reflexivity|]. split; [reflexivity|].
  apply (nil_head_is_permanent
           (final (run (pushes (repeat (Some 1%nat) 128) ++ pops 128) New))
           [OPush (Some 2%nat); OLen; OPop]).
  - vm_compute. reflexivity.
  - reflexivity.
Defined.

Lemma nodes_form_a_chain_witness :
  reachable (@New nat) /\ head (q (@New nat)) <> None /\
  exists (pre : list (addr * list value)) (t : addr) (vs : list value),
    chained (@New nat) pre t vs.
Proof.
  assert (Hr : reachable (@New nat)).
  { exists []. split; [vm_compute; reflexivity|reflexivity]. }
  assert (Hh : head (q (@New nat)) <> None) by (vm_compute; discriminate).
  split; [exact Hr|]. split; [exact Hh|].
  apply (nodes_form_a_chain New Hr Hh).
Defined.

Lemma pushes_allocate_witness :
  Z.of_nat (length (repeat (Some 1%nat) 129)) <= max_int /\
  Z.of_nat (length (heap (final (run (pushes (repeat (Some 1%nat) 129)) New))))
    = Z.max 1 ((Z.of_nat (length (repeat (Some 1%nat) 129))
                + internalSliceLastPosition) / internalSliceSize).
Proof.
  split; [vm_compute; discriminate|].
  apply (pushes_allocate (repeat (Some 1%nat) 129)).
  vm_compute. discriminate.
Defined.

Lemma reachable_panic_iff_witness :
  reachable (@New nat) /\
  ((head (q (@New nat)) = None /\ len (q (@New nat)) <> 0 /\
    Front (@New nat) = Panic NilDeref /\ Pop (@New nat) = Panic NilDeref) \/
   ((head (q (@New nat)) <> None \/ len (q (@New nat)) = 0) /\
    (exists r, Front (@New nat) = Ok (r, New)) /\
    (exists r s', Pop (@New nat) = Ok (r, s')))).
Proof.
  assert (Hr : reachable (@New nat)).
  { exists []. split; [vm_compute; reflexivity|reflexivity]. }
  split; [exact Hr|]. apply (reachable_panic_iff New Hr).
Defined.

Lemma first_node_is_safe_witness :
  Z.of_nat (length [OPush (Some 1%nat); OPop; OPop; OFront; OPush None; OLen])
    <= max_int /\
  popped (trace (run [OPush (Some 1%nat); OPop; OPop; OFront; OPush None;
                      OLen] New)) < internalSliceSize /\
  crash (run [OPush (Some 1%nat); OPop; OPop; OFront; OPush None; OLen] New)
    = None.
Proof.
  split; [vm_compute; discriminate|]. split; [vm_compute; reflexivity|].
  apply (first_node_is_safe
           [OPush (Some 1%nat); OPop; OPop; OFront; OPush None; OLen]).
  - vm_compute. discriminate.
  - vm_compute. reflexivity.
Defined.

Lemma retired_node_unreferenced_witness :
  reachable (final (run (pushes (repeat (Some 1%nat) 129) ++ pops 127) New)) /\
  Pop (final (run (pushes (repeat (Some 1%nat) 129) ++ pops 127) New)) =
    Ok ((Some 1%nat, true),
        final (run (pushes (repeat (Some 1%nat) 129) ++ pops 128) New)) /\
  head (q (final (run (pushes (repeat (Some 1%nat) 129) ++ pops 127) New)))
    = Some 0%nat /\
  pos (q (final (run (pushes (repeat (Some 1%nat) 129) ++ pops 127) New)))
    = internalSliceLastPosition /\
  head (q (final (run (pushes (repeat (Some 1%nat) 129) ++ pops 127) New)))
    <> tail (q (final (run (pushes (repeat (Some 1%nat) 129) ++ pops 127)
                        New))) /\
  head (q (final (run (pushes (repeat (Some 1%nat) 129) ++ pops 128) New)))
    <> Some 0%nat /\
  tail (q (final (run (pushes (repeat (Some 1%nat) 129) ++ pops 128) New)))
    <> Some 0%nat.
Proof.
  assert (Hr : reachable
                 (final (run (pushes (repeat (Some 1%nat) 129) ++ pops 127)
                           New))).
  { exists (pushes (repeat (Some 1%nat) 129) ++ pops 127).
    split; [vm_compute; reflexivity|reflexivity]. }
  assert (HP : Pop (final (run (pushes (repeat (Some 1%nat) 129) ++ pops 127)
                             New)) =
               Ok ((Some 1%nat, true),
                   final (run (pushes (repeat (Some 1%nat) 129) ++ pops 128)
                            New)))
    by (vm_compute; reflexivity).
  assert (Hh : head (q (final (run (pushes (repeat (Some 1%nat) 129)
                                    ++ pops 127) New))) = Some 0%nat)
    by (vm_compute; reflexivity).
  assert (Hp : pos (q (final (run (pushes (repeat (Some 1%nat) 129)
                                   ++ pops 127) New)))
               = internalSliceLastPosition)
    by (vm_compute; reflexivity).
  assert (Hne : head (q (final (run (pushes (repeat (Some 1%nat) 129)
                                     ++ pops 127) New)))
                <> tail (q (final (run (pushes (repeat (Some 1%nat) 129)
                                        ++ pops 127) New))))
    by (vm_compute; discriminate).
  split; [exact Hr|]. split; [exact HP|]. split; [exact Hh|].
  split; [exact Hp|]. split; [exact Hne|].
  destruct (retired_node_unreferenced _ _ _ _ Hr HP Hh Hp Hne)
    as (H1 & H2 & _).
  split; assumption.
Defined.
